(** * go-ObuJIS2004: a filename-driven line searcher

    Shallow embedding of [main.go] (package [main]) and of the parts of the Go
    standard library it calls, followed by the properties of the program.

    Conventions of the embedding:
    - a Go [string] is its sequence of bytes, [list byte];
    - a Go [rune] is an integer, [Z];
    - a Go [int] is a 64-bit two's complement integer: a [Z] whose additions
      and subtractions wrap ([int_add], [int_sub]);
    - a run-time panic is the outcome [Panic];
    - a Go [error] return is a value of the inductive type [error];
    - [map[string]*SearchResult] is a finite map from keys to records: every
      key of the program owns its pointer alone (the pointer is created at
      initialisation and never copied under another key), so the record stored
      at a key is that single object. *)

From Stdlib Require Import ZArith List Lia Bool ZifyBool.
From stdpp Require Import base option list countable gmap strings.
From Stdlib Require Import Strings.Byte.
From Stdlib Require DecimalString.
Import ListNotations.

Local Open Scope Z_scope.

(** ** Bytes and strings *)

Abbreviation gostring := (list byte).

Definition lit (s : string) : gostring := String.list_byte_of_string s.

Definition b2z (b : byte) : Z := Z.of_N (Byte.to_N b).

(** Go's conversion [byte(x)]: the low eight bits. *)
Definition z2b (z : Z) : byte :=
  match Byte.of_N (Z.to_N (z mod 256)) with
  | Some b => b
  | None => x00
  end.

#[global] Instance byte_eq_dec : EqDecision byte.
Proof.
  intros x y. destruct (Byte.eqb x y) eqn:E.
  - left. apply Byte.byte_dec_bl, E.
  - right. apply Byte.eqb_false, E.
Defined.

Definition byte_of_N (n : N) : byte := default x00 (Byte.of_N n).

#[global] Instance byte_countable : Countable byte :=
  inj_countable' Byte.to_N byte_of_N
    (fun b => f_equal (default x00) (Byte.of_to_N b)).

(** ** Go's [int] *)

Definition MaxInt : Z := 2 ^ 63 - 1.
Definition MinInt : Z := - 2 ^ 63.

Definition wrap (z : Z) : Z := (z + 2 ^ 63) mod 2 ^ 64 - 2 ^ 63.

Definition int_add (a b : Z) : Z := wrap (a + b).
Definition int_sub (a b : Z) : Z := wrap (a - b).

Definition is_int (z : Z) : Prop := MinInt <= z <= MaxInt.

(** [len]: the length of a slice or string, an [int]. *)
Definition len {A} (l : list A) : Z := Z.of_nat (length l).

(** ** Outcomes: normal completion or run-time panic *)

Inductive outcome (A : Type) : Type :=
| Done (a : A)
| Panic.
Arguments Done {A} a.
Arguments Panic {A}.

Definition obind {A B} (m : outcome A) (k : A -> outcome B) : outcome B :=
  match m with
  | Done a => k a
  | Panic => Panic
  end.

Notation "'do' x <- m ; k" := (obind m (fun x => k))
  (at level 10, x pattern, m at level 100, k at level 200).

(** Left-to-right loop over a slice whose body may panic. *)
Fixpoint foldO {A S} (body : S -> A -> outcome S) (st : S) (l : list A) : outcome S :=
  match l with
  | [] => Done st
  | a :: l' => do st' <- body st a; foldO body st' l'
  end.

(** ** Package [unicode/utf8] *)

Abbreviation rune := Z (only parsing).

Definition RuneError : rune := 0xFFFD.
Definition MaxRune : rune := 0x10FFFF.
Definition surrogateMin : rune := 0xD800.
Definition surrogateMax : rune := 0xDFFF.

Definition maskx : Z := 0x3F.
Definition mask2 : Z := 0x1F.
Definition mask3 : Z := 0x0F.
Definition mask4 : Z := 0x07.

Definition locb : Z := 0x80.
Definition hicb : Z := 0xBF.

(** An entry of the table [first]: what the first byte of a sequence announces. *)
Inductive firstInfo : Type :=
| ASCII                                (* as: one byte, the rune itself *)
| Illegal                              (* xx: invalid first byte *)
| Lead (sz : Z) (lo hi : Z).           (* size and accepted range of the second byte *)

Definition first (s0 : Z) : firstInfo :=
  if s0 <? 0x80 then ASCII
  else if s0 <? 0xC2 then Illegal
  else if s0 <? 0xE0 then Lead 2 locb hicb
  else if s0 =? 0xE0 then Lead 3 0xA0 hicb
  else if s0 <? 0xED then Lead 3 locb hicb
  else if s0 =? 0xED then Lead 3 locb 0x9F
  else if s0 <? 0xF0 then Lead 3 locb hicb
  else if s0 =? 0xF0 then Lead 4 0x90 hicb
  else if s0 <? 0xF4 then Lead 4 locb hicb
  else if s0 =? 0xF4 then Lead 4 locb 0x8F
  else Illegal.

(** [utf8.DecodeRuneInString]: the first rune of [s] and its width in bytes;
    an invalid encoding gives [(RuneError, 1)], the empty string
    [(RuneError, 0)]. *)
Definition DecodeRuneInString (s : gostring) : rune * nat :=
  match s with
  | [] => (RuneError, 0%nat)
  | b0 :: t0 =>
    let s0 := b2z b0 in
    match first s0 with
    | ASCII => (s0, 1%nat)
    | Illegal => (RuneError, 1%nat)
    | Lead sz lo hi =>
      if len s <? sz then (RuneError, 1%nat) else
      match t0 with
      | [] => (RuneError, 1%nat)
      | b1 :: t1 =>
        let s1 := b2z b1 in
        if (s1 <? lo) || (hi <? s1) then (RuneError, 1%nat)
        else if sz <=? 2 then
          (Z.lor (Z.shiftl (Z.land s0 mask2) 6) (Z.land s1 maskx), 2%nat)
        else
        match t1 with
        | [] => (RuneError, 1%nat)
        | b2 :: t2 =>
          let s2 := b2z b2 in
          if (s2 <? locb) || (hicb <? s2) then (RuneError, 1%nat)
          else if sz <=? 3 then
            (Z.lor (Z.lor (Z.shiftl (Z.land s0 mask3) 12)
                          (Z.shiftl (Z.land s1 maskx) 6))
                   (Z.land s2 maskx), 3%nat)
          else
          match t2 with
          | [] => (RuneError, 1%nat)
          | b3 :: _ =>
            let s3 := b2z b3 in
            if (s3 <? locb) || (hicb <? s3) then (RuneError, 1%nat)
            else
              (Z.lor (Z.lor (Z.lor (Z.shiftl (Z.land s0 mask4) 18)
                                   (Z.shiftl (Z.land s1 maskx) 12))
                            (Z.shiftl (Z.land s2 maskx) 6))
                     (Z.land s3 maskx), 4%nat)
          end
        end
      end
    end
  end.

(** A continuation byte, and a string that does not begin with one. *)
Definition isCont (b : byte) : bool := (locb <=? b2z b) && (b2z b <=? hicb).

Definition startsClean (s : gostring) : Prop :=
  match s with
  | [] => True
  | b :: _ => isCont b = false
  end.

(** The conversion [[]rune(s)]: decode rune after rune, an invalid byte
    counting as one [RuneError].  Every step consumes at least one byte, so
    [length s] steps are enough ([runes_cons] below). *)
Fixpoint runesLoop (fuel : nat) (s : gostring) : list rune :=
  match fuel with
  | O => []
  | S fuel' =>
    match s with
    | [] => []
    | _ :: _ =>
      let '(r, w) := DecodeRuneInString s in
      r :: runesLoop fuel' (drop w s)
    end
  end.

Definition runes (s : gostring) : list rune := runesLoop (length s) s.

(** [utf8.ValidString]. *)
Fixpoint validLoop (fuel : nat) (s : gostring) : bool :=
  match fuel with
  | O => true
  | S fuel' =>
    match s with
    | [] => true
    | _ :: _ =>
      let '(r, w) := DecodeRuneInString s in
      if (r =? RuneError) && (w =? 1)%nat then false
      else validLoop fuel' (drop w s)
    end
  end.

Definition ValidString (s : gostring) : bool := validLoop (length s) s.

(** [utf8.AppendRune] on an empty buffer: the encoding of one rune; runes
    out of range and surrogate halves are encoded as [RuneError]. *)
Definition t2 : Z := 0xC0.
Definition t3 : Z := 0xE0.
Definition t4 : Z := 0xF0.
Definition tx : Z := 0x80.

Definition encode3 (r : rune) : gostring :=
  [ z2b (Z.lor t3 (Z.shiftr r 12));
    z2b (Z.lor tx (Z.land (Z.shiftr r 6) maskx));
    z2b (Z.lor tx (Z.land r maskx)) ].

Definition EncodeRune (r : rune) : gostring :=
  if (0 <=? r) && (r <=? 0x7F) then [ z2b r ]
  else if (0 <=? r) && (r <=? 0x7FF) then
    [ z2b (Z.lor t2 (Z.shiftr r 6)); z2b (Z.lor tx (Z.land r maskx)) ]
  else if (r <? 0) || (MaxRune <? r) || ((surrogateMin <=? r) && (r <=? surrogateMax))
  then encode3 RuneError
  else if r <=? 0xFFFF then encode3 r
  else
    [ z2b (Z.lor t4 (Z.shiftr r 18));
      z2b (Z.lor tx (Z.land (Z.shiftr r 12) maskx));
      z2b (Z.lor tx (Z.land (Z.shiftr r 6) maskx));
      z2b (Z.lor tx (Z.land r maskx)) ].

(** The conversion [string(rs)] of a rune slice. *)
Definition string_of_runes (rs : list rune) : gostring := flat_map EncodeRune rs.

(** ** Package [strings] *)

Fixpoint HasPrefix (s prefix : gostring) {struct prefix} : bool :=
  match prefix, s with
  | [], _ => true
  | _ :: _, [] => false
  | p :: prefix', c :: s' => Byte.eqb c p && HasPrefix s' prefix'
  end.

(** [strings.Contains]: [substr] occurs in [s] as a run of bytes. *)
Fixpoint Contains (s substr : gostring) : bool :=
  HasPrefix s substr ||
  match s with
  | [] => false
  | _ :: s' => Contains s' substr
  end.

(** ** Domain types and constants *)

Definition MaxSnippets : Z := 10.
Definition DefaultContextSize : Z := 20.

Record SearchResult : Type := mkSearchResult {
  Query : gostring;
  Count : Z;
  Snippets : list gostring
}.

Record Config : Type := mkConfig {
  InputFilePath : gostring;
  Queries : list gostring;
  ContextSize : Z
}.

(** ** [extractSnippet] *)

(** The inner loop [for j := 0; j < qLen; j++]: [rest] is [lineRunes[i:]].
    The outer loop guard keeps [i + j] inside the line. *)
Fixpoint matchHere (rest queryRunes : list rune) {struct queryRunes} : bool :=
  match queryRunes, rest with
  | [], _ => true
  | _ :: _, [] => false
  | c :: q', d :: rest' => (d =? c) && matchHere rest' q'
  end.

(** The outer loop [for i := 0; i <= lineLen-qLen; i++], entered at index [i]
    with [rest = lineRunes[i:]]; the result is [idx], [-1] when the loop ends
    without a match. *)
Fixpoint searchFrom (i : Z) (rest queryRunes : list rune) : Z :=
  if len rest <? len queryRunes then -1
  else if matchHere rest queryRunes then i
  else match rest with
       | [] => -1
       | _ :: rest' => searchFrom (i + 1) rest' queryRunes
       end.

(** The slice expression [s[lo:hi]] on a slice whose capacity is its length. *)
Definition slice {A} (s : list A) (lo hi : Z) : outcome (list A) :=
  if (0 <=? lo) && (lo <=? hi) && (hi <=? len s)
  then Done (take (Z.to_nat (hi - lo)) (drop (Z.to_nat lo) s))
  else Panic.

Definition extractSnippet (lineRunes : list rune) (query : gostring)
    (contextSize : Z) : outcome gostring :=
  let queryRunes := runes query in
  let qLen := len queryRunes in
  let lineLen := len lineRunes in
  let idx := searchFrom 0 lineRunes queryRunes in
  if idx =? -1 then Done []
  else
    let start := int_sub idx contextSize in
    let start := if start <? 0 then 0 else start in
    let end_ := int_add (int_add idx qLen) contextSize in
    let end_ := if lineLen <? end_ then lineLen else end_ in
    do window <- slice lineRunes start end_;
    Done (string_of_runes window).

(** ** Errors *)

Inductive error : Type :=
| ErrMissingInput                        (* "input file path is required" *)
| ErrInvalidName (baseName : gostring)   (* "invalid executable name format: ..." *)
| ErrNoQueries                           (* "no search queries found in executable name" *)
| ErrTooLong                             (* bufio.ErrTooLong *)
| ErrExternal (msg : gostring)           (* an error of the environment: reader, file system *)
| ErrReadStream (cause : error)          (* "error reading stream: %w" *)
| ErrBadFlagSyntax (arg : gostring)      (* "bad flag syntax: ..." *)
| ErrHelp                                (* flag.ErrHelp *)
| ErrUndefinedFlag (name : gostring)     (* "flag provided but not defined: -..." *)
| ErrFlagNeedsArgument (name : gostring) (* "flag needs an argument: -..." *)
| ErrInvalidFlagValue (name value : gostring).  (* "invalid value ... for flag -..." *)

Inductive result (A : Type) : Type :=
| Success (a : A)
| Failure (e : error).
Arguments Success {A} a.
Arguments Failure {A} e.

(** ** Package [bufio]: a [Scanner] with the default split function [ScanLines] *)

(** An [io.Reader]: the bytes it delivers, then end of file ([None]) or an error. *)
Record Reader : Type := mkReader {
  content : gostring;
  failure : option error
}.

Definition MaxScanTokenSize : Z := 64 * 1024.

Definition newline : byte := "010"%byte.
Definition carriage : byte := "013"%byte.

Fixpoint dropCR (data : gostring) : gostring :=
  match data with
  | [] => []
  | [b] => if Byte.eqb b carriage then [] else [b]
  | b :: data' => b :: dropCR data'
  end.

(** The tokens [scanner.Scan] yields and the value of [scanner.Err] at the
    end.  [cur] is the unterminated line buffered so far.  A line ends at a
    newline byte; what is left at the end of the input is a last line if it is
    not empty; a line that fills the buffer ([MaxScanTokenSize] bytes without a
    newline) stops the scan with [ErrTooLong]. *)
Fixpoint scanTokens (cur data : gostring) (fail : option error)
    : list gostring * option error :=
  match data with
  | [] => (match cur with [] => [] | _ :: _ => [dropCR cur] end, fail)
  | b :: data' =>
    if Byte.eqb b newline then
      let '(tokens, err) := scanTokens [] data' fail in
      (dropCR cur :: tokens, err)
    else if MaxScanTokenSize <=? len cur + 1 then ([], Some ErrTooLong)
    else scanTokens (cur ++ [b]) data' fail
  end.

Definition scanLines (r : Reader) : list gostring * option error :=
  scanTokens [] (content r) (failure r).

(** ** [SearchStream] *)

(** The first loop: [results[q] = &SearchResult{Query: q}]. *)
Definition newResults (queries : list gostring) : gmap gostring SearchResult :=
  foldl (fun results q => <[q := mkSearchResult q 0 []]> results) ∅ queries.

(** The body of [for _, q := range queries] for the line [lineText].  The
    state is the result map and the lazily converted [lineRunes] ([None] is the
    nil slice). *)
Definition scanQuery (lineText : gostring) (contextSize : Z)
    (st : gmap gostring SearchResult * option (list rune)) (q : gostring)
    : outcome (gmap gostring SearchResult * option (list rune)) :=
  let '(results, lineRunes) := st in
  if negb (Contains lineText q) then Done (results, lineRunes)
  else
    match results !! q with
    | None => Panic
    | Some res =>
      let count := int_add (Count res) 1 in
      if len (Snippets res) <? MaxSnippets then
        let lineRunes' :=
          match lineRunes with
          | None => runes lineText
          | Some rs => rs
          end in
        do snippet <- extractSnippet lineRunes' q contextSize;
        Done (<[q := mkSearchResult (Query res) count (Snippets res ++ [snippet])]> results,
              Some lineRunes')
      else
        Done (<[q := mkSearchResult (Query res) count (Snippets res)]> results, lineRunes)
    end.

(** The body of [for scanner.Scan()]. *)
Definition scanLine (contextSize : Z) (queries : list gostring)
    (results : gmap gostring SearchResult) (lineText : gostring)
    : outcome (gmap gostring SearchResult) :=
  do st <- foldO (scanQuery lineText contextSize) (results, None) queries;
  Done (fst st).

Definition SearchStream (r : Reader) (queries : list gostring) (contextSize : Z)
    : outcome (result (gmap gostring SearchResult)) :=
  let '(lines, err) := scanLines r in
  do results <- foldO (scanLine contextSize queries) (newResults queries) lines;
  match err with
  | Some e => Done (Failure (ErrReadStream e))
  | None => Done (Success results)
  end.

(** ** [WriteResults] *)

(** The verb [%d] of package [fmt] on an [int]. *)
Definition formatInt (n : Z) : gostring :=
  String.list_byte_of_string (DecimalString.NilZero.string_of_int (Z.to_int n)).

(** The bytes of the count label, UTF-8 for U+8A72 U+5F53 U+6570, then ": ". *)
Definition countLabel : gostring :=
  [ "232"; "169"; "178"; "229"; "189"; "147"; "230"; "149"; "176"; ":"; " " ]%byte.

Definition separatorLine : gostring := lit "-----------------------" ++ [newline].

(** The lines [i+1:snippet], [i] being the index of the first of [snippets]. *)
Fixpoint formatSnippets (i : Z) (snippets : list gostring) : gostring :=
  match snippets with
  | [] => []
  | snippet :: more =>
    formatInt (i + 1) ++ lit ":" ++ snippet ++ [newline] ++ formatSnippets (i + 1) more
  end.

Definition formatBlock (res : SearchResult) : gostring :=
  lit "[" ++ Query res ++ lit "]" ++ [newline]
  ++ countLabel ++ formatInt (Count res) ++ [newline]
  ++ formatSnippets 0 (Snippets res)
  ++ separatorLine.

(** What [WriteResults] writes to [w]. *)
Fixpoint WriteResults (results : gmap gostring SearchResult)
    (queryOrder : list gostring) : gostring :=
  match queryOrder with
  | [] => []
  | q :: more =>
    match results !! q with
    | None => WriteResults results more
    | Some res => formatBlock res ++ WriteResults results more
    end
  end.

(** ** Package [path/filepath] (Unix: the separator is the slash, no volume names) *)

Definition IsPathSeparator (b : byte) : bool := Byte.eqb b "/"%byte.

Fixpoint dropWhile {A} (p : A -> bool) (l : list A) : list A :=
  match l with
  | [] => []
  | a :: l' => if p a then dropWhile p l' else l
  end.

Fixpoint takeWhile {A} (p : A -> bool) (l : list A) : list A :=
  match l with
  | [] => []
  | a :: l' => if p a then a :: takeWhile p l' else []
  end.

(** [filepath.Base]: the last element of the path, trailing separators
    removed; ["."] for the empty path, the separator for a path of separators. *)
Definition Base (path : gostring) : gostring :=
  match path with
  | [] => lit "."
  | _ :: _ =>
    let stripped := rev (dropWhile IsPathSeparator (rev path)) in
    let last := rev (takeWhile (fun b => negb (IsPathSeparator b)) (rev stripped)) in
    match last with
    | [] => lit "/"
    | _ :: _ => last
    end
  end.

(** The loop of [filepath.Ext], from the last byte backwards; [suffix] is what
    has been passed. *)
Fixpoint extLoop (reversed suffix : gostring) : gostring :=
  match reversed with
  | [] => []
  | b :: more =>
    if IsPathSeparator b then []
    else if Byte.eqb b "."%byte then b :: suffix
    else extLoop more (b :: suffix)
  end.

Definition Ext (path : gostring) : gostring := extLoop (rev path) [].

(** [strings.Split(s, sep)] for a separator of one byte. *)
Fixpoint Split (s : gostring) (sep : byte) : list gostring :=
  match s with
  | [] => [[]]
  | b :: s' =>
    if Byte.eqb b sep then [] :: Split s' sep
    else match Split s' sep with
         | [] => [[b]]
         | part :: parts => (b :: part) :: parts
         end
  end.

(** ** [ParseArgs] *)

Definition underscore : byte := "_"%byte.

Definition isEmpty (s : gostring) : bool :=
  match s with
  | [] => true
  | _ :: _ => false
  end.

(** The loop that keeps the queries different from the empty string. *)
Definition validQueriesOf (queries : list gostring) : list gostring :=
  foldl (fun valid q => if isEmpty q then valid else valid ++ [q]) [] queries.

Definition nameWithoutExtOf (baseName : gostring) : gostring :=
  take (length baseName - length (Ext baseName)) baseName.

Definition ParseArgs (args : list gostring) (execPath : gostring) : result Config :=
  match args with
  | [] => Failure ErrMissingInput
  | inputFile :: _ =>
    let baseName := Base execPath in
    let nameWithoutExt := nameWithoutExtOf baseName in
    let parts := Split nameWithoutExt underscore in
    if len parts <? 2 then Failure (ErrInvalidName baseName)
    else
      let queries := drop 1 parts in
      let validQueries := validQueriesOf queries in
      if len validQueries =? 0 then Failure ErrNoQueries
      else Success (mkConfig inputFile validQueries DefaultContextSize)
  end.

(** ** Package [flag]: the flag set of [Run], with [-o] and [-n] *)

Record Flags : Type := mkFlags {
  outputFile : gostring;
  contextSize : Z
}.

Definition defaultFlags : Flags := mkFlags [] DefaultContextSize.

(** The shape of one command-line argument, as [parseOne] reads it. *)
Inductive argShape : Type :=
| NotAFlag                                      (* the flags end here, the argument stays *)
| Terminator                                    (* "--": the flags end here *)
| BadSyntax
| FlagArg (name : gostring) (value : option gostring).

(** The search for the first equals sign from index 1 on. *)
Fixpoint cutAtEquals (s : gostring) : gostring * option gostring :=
  match s with
  | [] => ([], None)
  | b :: s' =>
    if Byte.eqb b "="%byte then ([], Some s')
    else let '(name, value) := cutAtEquals s' in (b :: name, value)
  end.

Definition flagName (name : gostring) : argShape :=
  match name with
  | [] => BadSyntax
  | b :: name' =>
    if Byte.eqb b "-"%byte || Byte.eqb b "="%byte then BadSyntax
    else let '(n, value) := cutAtEquals name' in FlagArg (b :: n) value
  end.

Definition shapeOf (s : gostring) : argShape :=
  match s with
  | b0 :: b1 :: s' =>
    if negb (Byte.eqb b0 "-"%byte) then NotAFlag
    else if Byte.eqb b1 "-"%byte then
      match s' with
      | [] => Terminator
      | _ :: _ => flagName s'
      end
    else flagName (b1 :: s')
  | _ => NotAFlag
  end.

Section FlagSet.

(** [strconv.ParseInt(s, 0, strconv.IntSize)], [None] when it returns an error. *)
Variable ParseInt : gostring -> option Z.

(** The flags the set defines. *)
Definition defined (name : gostring) : bool :=
  bool_decide (name = lit "o") || bool_decide (name = lit "n").

(** [flag.Value.Set] on the defined flag [name]: a string for [-o], an
    [int] for [-n]. *)
Definition setFlag (fl : Flags) (name value : gostring) : result Flags :=
  if bool_decide (name = lit "o") then
    Success (mkFlags value (contextSize fl))
  else
    match ParseInt value with
    | Some n => Success (mkFlags (outputFile fl) n)
    | None => Failure (ErrInvalidFlagValue name value)
    end.

Definition undefinedFlag (name : gostring) : error :=
  if bool_decide (name = lit "help") || bool_decide (name = lit "h")
  then ErrHelp else ErrUndefinedFlag name.

(** [FlagSet.Parse] with [ContinueOnError]: the flags set and [fs.Args()],
    or the first error.  Neither flag is boolean, so a flag without [=value]
    takes the next argument as its value. *)
Fixpoint Parse (fl : Flags) (args : list gostring) : result (Flags * list gostring) :=
  match args with
  | [] => Success (fl, [])
  | s :: rest =>
    match shapeOf s with
    | NotAFlag => Success (fl, args)
    | Terminator => Success (fl, rest)
    | BadSyntax => Failure (ErrBadFlagSyntax s)
    | FlagArg name value =>
      if negb (defined name) then Failure (undefinedFlag name)
      else
        match value with
        | Some v =>
          match setFlag fl name v with
          | Success fl' => Parse fl' rest
          | Failure e => Failure e
          end
        | None =>
          match rest with
          | [] => Failure (ErrFlagNeedsArgument name)
          | v :: rest' =>
            match setFlag fl name v with
            | Success fl' => Parse fl' rest'
            | Failure e => Failure e
            end
          end
        end
    end
  end.

(** ** [Run] *)

Record AppContext : Type := mkAppContext {
  Args : list gostring;
  ExecPath : gostring;
  FileReader : gostring -> result Reader;
  FileCreator : gostring -> option error    (* [None]: the file is created *)
}.

Inductive logValue : Type :=
| LogString (s : gostring)
| LogError (e : error).

Record LogRecord : Type := mkLog {
  logMsg : gostring;
  logAttrs : list (gostring * logValue)
}.

(** What a run leaves behind: the exit code, the bytes written to
    [ctx.Stdout], the records logged to [ctx.Stderr], the errors package
    [flag] printed itself, and the output file with the bytes written to it. *)
Record RunResult : Type := mkRun {
  exitCode : Z;
  stdout : gostring;
  stderr : list LogRecord;
  flagOutput : list error;
  outFile : option (gostring * gostring)
}.

Definition failed (record : LogRecord) (file : option gostring) : RunResult :=
  mkRun 1 [] [record] [] (option_map (fun path => (path, [])) file).

(** [Run] from the opening of the input file on; [file] is the output file
    of [-o], already created. *)
Definition search (ctx : AppContext) (config : Config) (file : option gostring)
    : outcome RunResult :=
  match FileReader ctx (InputFilePath config) with
  | Failure err =>
    Done (failed (mkLog (lit "Failed to open input file")
                    [(lit "path", LogString (InputFilePath config));
                     (lit "error", LogError err)]) file)
  | Success f =>
    do found <- SearchStream f (Queries config) (ContextSize config);
    match found with
    | Failure err =>
      Done (failed (mkLog (lit "Search failed") [(lit "error", LogError err)]) file)
    | Success results =>
      let output := WriteResults results (Queries config) in
      Done (mkRun 0 output [] [] (option_map (fun path => (path, output)) file))
    end
  end.

Definition Run (ctx : AppContext) : outcome RunResult :=
  let args := drop 1 (Args ctx) in
  match Parse defaultFlags args with
  | Failure err =>
    Done (mkRun 1 [] [mkLog (lit "Flag parse error") [(lit "error", LogError err)]]
                [err] None)
  | Success (fl, remainingArgs) =>
    if contextSize fl <? 0 then
      Done (failed (mkLog (lit "Context size cannot be negative") []) None)
    else
      match ParseArgs remainingArgs (ExecPath ctx) with
      | Failure err =>
        Done (failed (mkLog (lit "Configuration error") [(lit "error", LogError err)]) None)
      | Success config0 =>
        let config :=
          mkConfig (InputFilePath config0) (Queries config0) (contextSize fl) in
        match outputFile fl with
        | [] => search ctx config None
        | _ :: _ =>
          match FileCreator ctx (outputFile fl) with
          | Some err =>
            Done (failed (mkLog (lit "Failed to create output file")
                            [(lit "path", LogString (outputFile fl));
                             (lit "error", LogError err)]) None)
          | None => search ctx config (Some (outputFile fl))
          end
        end
      end
  end.

End FlagSet.

(** * Vocabulary of the properties *)

(** [q] occurs in [l] at index [i]; [i] is the index of its first occurrence. *)
Definition occursAt {A} (l q : list A) (i : nat) : Prop :=
  exists pre post, l = pre ++ q ++ post /\ length pre = i.

Definition firstOccurrence {A} (l q : list A) (i : nat) : Prop :=
  occursAt l q i /\ forall j, occursAt l q j -> (i <= j)%nat.

(** The elements of [l] from index [lo] up to, not including, index [hi]. *)
Definition substring {A} (l : list A) (lo hi : Z) : list A :=
  take (Z.to_nat (hi - lo)) (drop (Z.to_nat lo) l).

(** The snippet of a line for a query, where the extraction completes. *)
Definition snippetOf (lineText q : gostring) (N : Z) : gostring :=
  match extractSnippet (runes lineText) q N with
  | Done s => s
  | Panic => []
  end.

(** What one matching pass of the loop body does to the record of the query. *)
Definition hit (lineText q : gostring) (N : Z) (res : SearchResult) : SearchResult :=
  mkSearchResult (Query res) (int_add (Count res) 1)
    (if len (Snippets res) <? MaxSnippets
     then Snippets res ++ [snippetOf lineText q N]
     else Snippets res).

(** How many times [q] stands in the query list. *)
Fixpoint occurrences (q : gostring) (queries : list gostring) : nat :=
  match queries with
  | [] => 0
  | q' :: more => (if bool_decide (q' = q) then 1 else 0) + occurrences q more
  end.

(** The record of a query that stands [k] times in the list, after one line
    and after a list of lines. *)
Definition afterLine (lineText q : gostring) (N : Z) (k : nat) (res : SearchResult)
    : SearchResult :=
  if Contains lineText q then Nat.iter k (hit lineText q N) res else res.

Definition afterLines (lines : list gostring) (q : gostring) (N : Z) (k : nat)
    (res : SearchResult) : SearchResult :=
  foldl (fun r lineText => afterLine lineText q N k r) res lines.

(** The lazily converted line is either not converted yet or the runes of the line. *)
Definition cached (lineText : gostring) (lineRunes : option (list Z)) : Prop :=
  lineRunes = None \/ lineRunes = Some (runes lineText).

(** The result map of [SearchStream] once the lines [lines] have been scanned. *)
Definition resultsAfter (N : Z) (queries lines : list gostring)
    : outcome (gmap gostring SearchResult) :=
  foldO (scanLine N queries) (newResults queries) lines.

Definition matchingLines (q : gostring) (lines : list gostring) : list gostring :=
  List.filter (fun lineText => Contains lineText q) lines.

(** The snippets the lines ask for, line after line, [k] for each matching line. *)
Definition snippetsFor (q : gostring) (N : Z) (k : nat) (lines : list gostring)
    : list gostring :=
  flat_map (fun lineText => replicate k (snippetOf lineText q N)) (matchingLines q lines).

(** The context widths for which no line a [Scanner] can deliver overflows
    the index arithmetic of [extractSnippet]. *)
Definition safeWidth (N : Z) : Prop := 0 <= N <= MaxInt - MaxScanTokenSize.

(** The record of a query in what [SearchStream] returns, [None] when the
    search fails or the map has no record of the query. *)
Definition recordOf (found : outcome (result (gmap gostring SearchResult)))
    (q : gostring) : option SearchResult :=
  match found with
  | Done (Success results) => results !! q
  | _ => None
  end.

(** The inputs of the scenarios of the test suite. *)
Definition target_line : gostring :=
  lit "12345678901234567890TARGET12345678901234567890".

Definition lazy_content : gostring :=
  lit "no match here" ++ [newline] ++ lit "prefix MATCH suffix".

(** The underscore-separated segments of the base name of the executable,
    extension stripped. *)
Definition segments (execPath : gostring) : list gostring :=
  Split (nameWithoutExtOf (Base execPath)) underscore.

Definition nonEmpty (s : gostring) : bool := negb (isEmpty s).

(** The segments joined again by the separator. *)
Fixpoint Join (parts : list gostring) (sep : byte) : gostring :=
  match parts with
  | [] => []
  | part :: more =>
    match more with
    | [] => part
    | _ :: _ => part ++ sep :: Join more sep
    end
  end.

(** The errors of a run: a flag that does not parse, a negative context
    width, a configuration [ParseArgs] rejects, an output file that cannot be
    created, an input file that cannot be opened, a stream that cannot be read. *)
Inductive runError (ParseInt : gostring -> option Z) (ctx : AppContext) : Prop :=
| FlagParseError (e : error) :
    Parse ParseInt defaultFlags (drop 1 (Args ctx)) = Failure e ->
    runError ParseInt ctx
| NegativeContextSize (fl : Flags) (rest : list gostring) :
    Parse ParseInt defaultFlags (drop 1 (Args ctx)) = Success (fl, rest) ->
    contextSize fl < 0 ->
    runError ParseInt ctx
| ConfigurationError (fl : Flags) (rest : list gostring) (e : error) :
    Parse ParseInt defaultFlags (drop 1 (Args ctx)) = Success (fl, rest) ->
    ParseArgs rest (ExecPath ctx) = Failure e ->
    runError ParseInt ctx
| FileCreateError (fl : Flags) (rest : list gostring) (e : error) :
    Parse ParseInt defaultFlags (drop 1 (Args ctx)) = Success (fl, rest) ->
    outputFile fl <> [] ->
    FileCreator ctx (outputFile fl) = Some e ->
    runError ParseInt ctx
| FileOpenError (fl : Flags) (rest : list gostring) (config : Config) (e : error) :
    Parse ParseInt defaultFlags (drop 1 (Args ctx)) = Success (fl, rest) ->
    ParseArgs rest (ExecPath ctx) = Success config ->
    FileReader ctx (InputFilePath config) = Failure e ->
    runError ParseInt ctx
| StreamReadError (fl : Flags) (rest : list gostring) (config : Config)
    (f : Reader) (e : error) :
    Parse ParseInt defaultFlags (drop 1 (Args ctx)) = Success (fl, rest) ->
    ParseArgs rest (ExecPath ctx) = Success config ->
    FileReader ctx (InputFilePath config) = Success f ->
    SearchStream f (Queries config) (contextSize fl) = Done (Failure e) ->
    runError ParseInt ctx.

(** An instance of [ParseInt] for the examples: it agrees with
    [strconv.ParseInt(s, 0, 64)] on the plain decimal numerals (an optional
    sign, then digits without a leading zero) and rejects everything else. *)
Fixpoint digitsValue (acc : Z) (s : gostring) : option Z :=
  match s with
  | [] => Some acc
  | b :: s' =>
    let d := b2z b - 48 in
    if (0 <=? d) && (d <=? 9) then digitsValue (10 * acc + d) s' else None
  end.

Definition parseDecimal (s : gostring) : option Z :=
  let '(negative, digits) :=
    match s with
    | [] => (false, [])
    | b :: s' =>
      if Byte.eqb b "-"%byte then (true, s')
      else if Byte.eqb b "+"%byte then (false, s')
      else (false, s)
    end in
  match digits with
  | [] => None
  | d0 :: more =>
    if Byte.eqb d0 "0"%byte && negb (isEmpty more) then None
    else
      match digitsValue 0 digits with
      | None => None
      | Some v =>
        let n := if negative then - v else v in
        if (MinInt <=? n) && (n <=? MaxInt) then Some n else None
      end
  end.

(** A run with a negative context width on the command line. *)
Definition negative_width_run : AppContext :=
  mkAppContext [lit "app"; lit "-n"; lit "-5"; lit "dummy.log"] (lit "app_TARGET")
    (fun _ => Success (mkReader (lit "PRE_TEXT_TARGET_POST_TEXT") None))
    (fun _ => None).

(** The block [WriteResults] prints for a query, nothing if the map has no
    record of it. *)
Definition blockOf (results : gmap gostring SearchResult) (q : gostring) : gostring :=
  match results !! q with
  | Some res => formatBlock res
  | None => []
  end.

(** A stream of one line with a query that stands twice in the list. *)
Definition twice : list gostring := [lit "a"; lit "a"].

(** A run with the largest [int] as context width on the command line. *)
Definition huge_width_run : AppContext :=
  mkAppContext [lit "app"; lit "-n"; lit "9223372036854775807"; lit "dummy.log"]
    (lit "app_a")
    (fun _ => Success (mkReader (lit "a") None))
    (fun _ => None).

(** * Proof automation *)

Ltac break_decode :=
  repeat match goal with
         | |- context [if ?c then _ else _] => destruct c eqn:?
         | |- context [match ?l with [] => _ | _ :: _ => _ end] => destruct l eqn:?
         end.

Ltac same_error := let H := fresh in intros H; exfalso; apply H; reflexivity.

Ltac exit_with file := do 2 eexists; exists file; reflexivity.

(** * Vocabulary of the further properties *)

(** [utf8.ValidRune]: a code point that is not a surrogate half. *)
Definition ValidRune (r : Z) : bool :=
  (0 <=? r) && (r <=? MaxRune) && negb ((surrogateMin <=? r) && (r <=? surrogateMax)).

(** The four shapes of the UTF-8 encoding of a rune: the bytes and the rune
    they stand for. *)
Inductive encoding : gostring -> Z -> Prop :=
| encoding1 (b0 : byte) :
    b2z b0 < 0x80 ->
    encoding [b0] (b2z b0)
| encoding2 (b0 b1 : byte) :
    0xC2 <= b2z b0 < 0xE0 -> 0x80 <= b2z b1 <= 0xBF ->
    encoding [b0; b1] ((b2z b0 - 192) * 64 + (b2z b1 - 128))
| encoding3 (b0 b1 b2 : byte) :
    0xE0 <= b2z b0 < 0xF0 ->
    (if b2z b0 =? 0xE0 then 0xA0 else 0x80) <= b2z b1
      <= (if b2z b0 =? 0xED then 0x9F else 0xBF) ->
    0x80 <= b2z b2 <= 0xBF ->
    encoding [b0; b1; b2]
      ((b2z b0 - 224) * 4096 + (b2z b1 - 128) * 64 + (b2z b2 - 128))
| encoding4 (b0 b1 b2 b3 : byte) :
    0xF0 <= b2z b0 <= 0xF4 ->
    (if b2z b0 =? 0xF0 then 0x90 else 0x80) <= b2z b1
      <= (if b2z b0 =? 0xF4 then 0x8F else 0xBF) ->
    0x80 <= b2z b2 <= 0xBF ->
    0x80 <= b2z b3 <= 0xBF ->
    encoding [b0; b1; b2; b3]
      ((b2z b0 - 240) * 262144 + (b2z b1 - 128) * 4096 + (b2z b2 - 128) * 64
       + (b2z b3 - 128)).

(** What [string(rs)] makes of a rune: itself, or [RuneError] when it is not
    a valid code point. *)
Definition sanitize (r : Z) : Z := if ValidRune r then r else RuneError.

(** A run that succeeds, with an output file. *)
Definition tee_run : AppContext :=
  mkAppContext [lit "app"; lit "-o"; lit "out.txt"; lit "dummy.log"] (lit "app_MATCH")
    (fun _ => Success (mkReader lazy_content None))
    (fun _ => None).

(** A run whose input file cannot be opened, with an output file. *)
Definition unreadable_run : AppContext :=
  mkAppContext [lit "app"; lit "-o"; lit "out.txt"; lit "missing.log"] (lit "app_MATCH")
    (fun _ => Failure (ErrExternal (lit "no such file")))
    (fun _ => None).

(** A run with arguments after the input path. *)
Definition trailing_args_run : AppContext :=
  mkAppContext [lit "app"; lit "dummy.log"; lit "-n"; lit "3"] (lit "app_MATCH")
    (fun _ => Success (mkReader lazy_content None))
    (fun _ => None).

(** The number of newline bytes of a text: the lines it is made of, when it
    ends with a newline. *)
Definition lineCount (s : gostring) : nat :=
  length (List.filter (Byte.eqb newline) s).

(** * Properties *)

(** ** Integers *)

Lemma wrap_small (z : Z) : MinInt <= z <= MaxInt -> wrap z = z.
Proof.
  unfold wrap, MinInt, MaxInt. intros H.
  rewrite Z.mod_small by lia. lia.
Qed.

Lemma wrap_range (z : Z) : MinInt <= wrap z <= MaxInt.
Proof.
  unfold wrap, MinInt, MaxInt.
  pose proof (Z.mod_pos_bound (z + 2 ^ 63) (2 ^ 64)). lia.
Qed.

Lemma len_nonneg {A} (l : list A) : 0 <= len l.
Proof. unfold len. lia. Qed.

Lemma len_app {A} (l k : list A) : len (l ++ k) = len l + len k.
Proof. unfold len. rewrite length_app. lia. Qed.

Lemma len_cons {A} (a : A) (l : list A) : len (a :: l) = len l + 1.
Proof. unfold len. simpl. lia. Qed.

(** ** Decoding UTF-8 *)

Lemma first_Lead (s0 sz lo hi : Z) :
  first s0 = Lead sz lo hi -> 2 <= sz <= 4 /\ locb <= lo /\ hi <= hicb /\ 0xC2 <= s0.
Proof.
  unfold first, locb, hicb.
  repeat match goal with
         | |- context [if ?c then _ else _] => destruct c eqn:?
         end; intros H; inversion H; subst; lia.
Qed.

Lemma first_cont (b : byte) : isCont b = true -> first (b2z b) = Illegal.
Proof.
  unfold isCont, first, locb, hicb. intros H.
  apply andb_true_iff in H as [H1 H2].
  destruct (b2z b <? 0x80) eqn:E1; [lia|].
  destruct (b2z b <? 0xC2) eqn:E2; [reflexivity|lia].
Qed.

Lemma decode_width (s : gostring) :
  s <> [] -> (1 <= snd (DecodeRuneInString s) <= length s)%nat.
Proof.
  intros Hs. destruct s as [|b0 t0]; [done|].
  unfold DecodeRuneInString.
  destruct (first (b2z b0)) as [| |sz lo hi]; simpl; try lia.
  repeat match goal with
         | |- context [if ?c then _ else _] => destruct c; simpl; try lia
         | |- context [match ?l with [] => _ | _ :: _ => _ end] =>
             destruct l; simpl; try lia
         end.
Qed.

(** A valid decoding reads only the bytes it consumes. *)
Lemma decode_app_valid (s x : gostring) :
  DecodeRuneInString s <> (RuneError, 1%nat) -> s <> [] ->
  DecodeRuneInString (s ++ x) = DecodeRuneInString s.
Proof.
  intros Hv Hs. destruct s as [|b0 t0]; [done|].
  revert Hv. rewrite <- app_comm_cons. unfold DecodeRuneInString. cbv zeta.
  destruct (first (b2z b0)) as [| |sz lo hi] eqn:Hf; try done.
  rewrite !len_cons, len_app.
  pose proof (len_nonneg x). pose proof (len_nonneg t0).
  destruct (len t0 + 1 <? sz) eqn:E1; [same_error|].
  destruct (len t0 + len x + 1 <? sz) eqn:E2; [lia|].
  destruct t0 as [|b1 t1]; [same_error|]. simpl app; cbv beta iota.
  destruct ((b2z b1 <? lo) || (hi <? b2z b1)); [same_error|].
  destruct (sz <=? 2); [intros _; reflexivity|].
  destruct t1 as [|b2 t2]; [same_error|]. simpl app; cbv beta iota.
  destruct ((b2z b2 <? locb) || (hicb <? b2z b2)); [same_error|].
  destruct (sz <=? 3); [intros _; reflexivity|].
  destruct t2 as [|b3 t3]; [same_error|]. simpl app; cbv beta iota.
  intros _; reflexivity.
Qed.

Lemma decode_app_clean (s x : gostring) :
  s <> [] -> startsClean x ->
  DecodeRuneInString (s ++ x) = DecodeRuneInString s.
Proof.
  intros Hs Hx. destruct x as [|c x]; [by rewrite app_nil_r|].
  simpl in Hx. unfold isCont in Hx. apply andb_false_iff in Hx.
  destruct s as [|b0 t0]; [done|].
  rewrite <- app_comm_cons. unfold DecodeRuneInString. cbv zeta.
  destruct (first (b2z b0)) as [| |sz lo hi] eqn:Hf; try done.
  apply first_Lead in Hf as (Hsz & Hlo & Hhi & _).
  rewrite !len_cons, len_app, len_cons.
  pose proof (len_nonneg x). pose proof (len_nonneg t0).
  assert (Hc1 : (b2z c <? lo) || (hi <? b2z c) = true).
  { apply orb_true_iff. destruct Hx; [left|right]; lia. }
  assert (Hc2 : (b2z c <? locb) || (hicb <? b2z c) = true).
  { apply orb_true_iff. destruct Hx; [left|right]; lia. }
  destruct t0 as [|b1 t1]; simpl app; cbv beta iota.
  { rewrite Hc1. break_decode; reflexivity. }
  rewrite !len_cons.
  destruct ((b2z b1 <? lo) || (hi <? b2z b1)); [break_decode; reflexivity|].
  destruct (sz <=? 2) eqn:E2; [break_decode; first [reflexivity|exfalso; unfold len in *; lia]|].
  destruct t1 as [|b2 t2]; simpl app; cbv beta iota.
  { rewrite Hc2. break_decode; reflexivity. }
  rewrite ?len_cons.
  destruct ((b2z b2 <? locb) || (hicb <? b2z b2)); [break_decode; reflexivity|].
  destruct (sz <=? 3) eqn:E3; [break_decode; first [reflexivity|exfalso; unfold len in *; lia]|].
  destruct t2 as [|b3 t3]; simpl app; cbv beta iota.
  { rewrite Hc2. break_decode; reflexivity. }
  rewrite ?len_cons.
  break_decode; first [reflexivity|exfalso; unfold len in *; lia].
Qed.

(** ** The conversion to runes *)

Lemma runesLoop_fuel (n m : nat) (s : gostring) :
  (length s <= n)%nat -> (length s <= m)%nat -> runesLoop n s = runesLoop m s.
Proof.
  revert m s. induction n as [|n IH]; intros m s Hn Hm.
  - destruct s; [|simpl in Hn; lia]. by destruct m.
  - destruct s as [|b t]; [by destruct m|].
    destruct m as [|m]; [simpl in Hm; lia|].
    cbn [runesLoop].
    pose proof (decode_width (b :: t) ltac:(done)) as Hw.
    destruct (DecodeRuneInString (b :: t)) as [r w]. simpl in Hw.
    f_equal. apply IH; rewrite length_drop; simpl in *; lia.
Qed.

Lemma runes_nil : runes [] = [].
Proof. reflexivity. Qed.

Lemma runes_step (s : gostring) :
  s <> [] ->
  runes s = fst (DecodeRuneInString s) :: runes (drop (snd (DecodeRuneInString s)) s).
Proof.
  intros Hs. unfold runes. destruct s as [|b t]; [done|].
  cbn [length runesLoop].
  pose proof (decode_width (b :: t) ltac:(done)) as Hw.
  destruct (DecodeRuneInString (b :: t)) as [r w]. simpl in *.
  f_equal. apply runesLoop_fuel; rewrite ?length_drop; simpl; lia.
Qed.

Lemma runes_length (s : gostring) : (length (runes s) <= length s)%nat.
Proof.
  remember (length s) as n eqn:Hn.
  revert s Hn. induction n as [n IH] using lt_wf_ind. intros s Hn.
  destruct s as [|b t]; [simpl; lia|].
  rewrite runes_step by done.
  pose proof (decode_width (b :: t) ltac:(done)) as Hw.
  destruct (DecodeRuneInString (b :: t)) as [r w]. cbn [fst snd] in *.
  assert (Hd : (length (drop w (b :: t)) < n)%nat) by (rewrite length_drop; lia).
  specialize (IH _ Hd _ eq_refl). simpl length at 1. lia.
Qed.

(** Decoding does not look back: in front of a string that starts at a rune
    boundary, any string decodes as it does alone. *)
Lemma runes_app_clean (a x : gostring) :
  startsClean x -> runes (a ++ x) = runes a ++ runes x.
Proof.
  intros Hx. remember (length a) as n eqn:Hn.
  revert a Hn. induction n as [n IH] using lt_wf_ind. intros a Hn.
  destruct a as [|b t]; [reflexivity|].
  rewrite (runes_step ((b :: t) ++ x)) by done.
  rewrite (runes_step (b :: t)) by done.
  rewrite decode_app_clean by done.
  pose proof (decode_width (b :: t) ltac:(done)) as Hw.
  destruct (DecodeRuneInString (b :: t)) as [r w]. cbn [fst snd] in *.
  rewrite drop_app_le by lia.
  rewrite <- app_comm_cons. f_equal.
  apply (IH (length (drop w (b :: t)))); [|reflexivity].
  rewrite length_drop. lia.
Qed.

Lemma validLoop_fuel (n m : nat) (s : gostring) :
  (length s <= n)%nat -> (length s <= m)%nat -> validLoop n s = validLoop m s.
Proof.
  revert m s. induction n as [|n IH]; intros m s Hn Hm.
  - destruct s; [|simpl in Hn; lia]. by destruct m.
  - destruct s as [|b t]; [by destruct m|].
    destruct m as [|m]; [simpl in Hm; lia|].
    cbn [validLoop].
    pose proof (decode_width (b :: t) ltac:(done)) as Hw.
    destruct (DecodeRuneInString (b :: t)) as [r w]. simpl in Hw.
    destruct ((r =? RuneError) && (w =? 1)%nat); [reflexivity|].
    apply IH; rewrite length_drop; simpl in *; lia.
Qed.

Lemma ValidString_step (s : gostring) :
  s <> [] -> ValidString s = true ->
  DecodeRuneInString s <> (RuneError, 1%nat) /\
  ValidString (drop (snd (DecodeRuneInString s)) s) = true.
Proof.
  intros Hs. unfold ValidString. destruct s as [|b t]; [done|].
  cbn [length validLoop].
  pose proof (decode_width (b :: t) ltac:(done)) as Hw.
  destruct (DecodeRuneInString (b :: t)) as [r w]. cbn [fst snd] in *.
  destruct ((r =? RuneError) && (w =? 1)%nat) eqn:E; [done|].
  intros Hv. split.
  - intros Heq. inversion Heq; subst. by rewrite Z.eqb_refl, Nat.eqb_refl in E.
  - rewrite <- Hv. apply validLoop_fuel; rewrite ?length_drop; simpl; lia.
Qed.

Lemma ValidString_clean (s : gostring) : ValidString s = true -> startsClean s.
Proof.
  destruct s as [|b t]; [done|]. intros Hv.
  apply ValidString_step in Hv as [Hd _]; [|done].
  simpl. destruct (isCont b) eqn:E; [|done].
  exfalso. apply Hd. unfold DecodeRuneInString. cbv zeta.
  by rewrite (first_cont b E).
Qed.

(** After a valid string, decoding starts afresh. *)
Lemma runes_app_valid (q x : gostring) :
  ValidString q = true -> runes (q ++ x) = runes q ++ runes x.
Proof.
  remember (length q) as n eqn:Hn.
  revert q Hn. induction n as [n IH] using lt_wf_ind. intros q Hn Hv.
  destruct q as [|b t]; [reflexivity|].
  apply ValidString_step in Hv as [Hd Hv]; [|done].
  rewrite (runes_step ((b :: t) ++ x)) by done.
  rewrite (runes_step (b :: t)) by done.
  rewrite decode_app_valid by done.
  pose proof (decode_width (b :: t) ltac:(done)) as Hw.
  destruct (DecodeRuneInString (b :: t)) as [r w]. cbn [fst snd] in *.
  rewrite drop_app_le by lia.
  rewrite <- app_comm_cons. f_equal.
  apply (IH (length (drop w (b :: t)))); [|reflexivity|done].
  rewrite length_drop. lia.
Qed.

(** ** Substrings *)

Lemma occursAt_bound {A} (l q : list A) i :
  occursAt l q i -> (i + length q <= length l)%nat.
Proof. intros (pre & post & -> & <-). rewrite !length_app. lia. Qed.

Lemma occursAt_cons {A} (a : A) (l q : list A) j :
  occursAt (a :: l) q (S j) <-> occursAt l q j.
Proof.
  split.
  - intros (pre & post & Hl & Hp). destruct pre as [|a' pre]; [done|].
    simpl in Hl, Hp. inversion Hl; subst. exists pre, post. split; [done|lia].
  - intros (pre & post & -> & <-). by exists (a :: pre), post.
Qed.

Lemma HasPrefix_spec (s p : gostring) :
  HasPrefix s p = true <-> exists x, s = p ++ x.
Proof.
  revert s. induction p as [|c p IH]; intros s; simpl.
  - split; [intros _; by exists s|done].
  - destruct s as [|d s].
    + split; [done|]. by intros [x Hx].
    + rewrite andb_true_iff, IH. split.
      * intros [Hc [x ->]]. apply Byte.byte_dec_bl in Hc as ->. by exists x.
      * intros [x Hx]. inversion Hx; subst. split; [apply Byte.byte_dec_lb; done|by exists x].
Qed.

Lemma Contains_spec (s sub : gostring) :
  Contains s sub = true <-> exists i, occursAt s sub i.
Proof.
  induction s as [|b s IH]; cbn [Contains]; rewrite orb_true_iff, HasPrefix_spec.
  - split.
    + intros [[x Hx]|?]; [|done]. exists 0%nat, [], x. done.
    + intros (i & pre & post & Hl & Hi). left.
      destruct pre; [|done]. by exists post.
  - rewrite IH. split.
    + intros [[x Hx]|[i Hi]].
      * exists 0%nat, [], x. done.
      * exists (S i). by apply occursAt_cons.
    + intros ([|i] & Hi).
      * left. destruct Hi as (pre & post & Hl & Hp). destruct pre; [|done]. by exists post.
      * right. exists i. by apply occursAt_cons in Hi.
Qed.

Lemma matchHere_spec (l q : list Z) :
  matchHere l q = true <-> occursAt l q 0.
Proof.
  revert l. induction q as [|c q IH]; intros l; simpl.
  - split; [|done]. intros _. by exists [], l.
  - destruct l as [|d l].
    + split; [done|]. intros (pre & post & Hl & Hp). by destruct pre.
    + rewrite andb_true_iff, IH. split.
      * intros [Hc (pre & post & -> & Hp)]. destruct pre; [|done].
        assert (d = c) as -> by lia. by exists [], post.
      * intros (pre & post & Hl & Hp). destruct pre; [|done].
        simpl in Hl. inversion Hl; subst. split; [lia|]. by exists [], post.
Qed.

(** The loop of [extractSnippet] finds the first occurrence, or ends with -1
    when there is none. *)
Lemma searchFrom_spec (l q : list Z) (k : Z) :
  (searchFrom k l q = -1 /\ forall j, ~ occursAt l q j) \/
  (exists i, firstOccurrence l q i /\ searchFrom k l q = k + Z.of_nat i).
Proof.
  revert k. induction l as [|a l IH]; intros k; cbn [searchFrom].
  - destruct (len [] <? len q) eqn:E1.
    + left. split; [done|]. intros j Hj. apply occursAt_bound in Hj.
      unfold len in E1. simpl in *. lia.
    + destruct (matchHere [] q) eqn:E2.
      * right. exists 0%nat. split; [|lia]. split; [by apply matchHere_spec|lia].
      * left. split; [done|]. intros j Hj. pose proof (occursAt_bound _ _ _ Hj) as Hb.
        simpl in Hb. assert (j = 0)%nat as -> by lia.
        apply matchHere_spec in Hj. congruence.
  - destruct (len (a :: l) <? len q) eqn:E1.
    + left. split; [done|]. intros j Hj. apply occursAt_bound in Hj.
      unfold len in E1. simpl in *. lia.
    + destruct (matchHere (a :: l) q) eqn:E2.
      * right. exists 0%nat. split; [|lia]. split; [by apply matchHere_spec|lia].
      * destruct (IH (k + 1)) as [[Hs Hn]|(i & [Hi Hmin] & Hs)].
        -- left. split; [done|]. intros [|j] Hj.
           ++ apply matchHere_spec in Hj. congruence.
           ++ apply occursAt_cons in Hj. by apply (Hn j).
        -- right. exists (S i). split; [|lia]. split; [by apply occursAt_cons|].
           intros [|j] Hj.
           ++ apply matchHere_spec in Hj. congruence.
           ++ apply occursAt_cons in Hj. apply Hmin in Hj. lia.
Qed.

Lemma searchFrom_first (l q : list Z) (i : nat) :
  firstOccurrence l q i -> searchFrom 0 l q = Z.of_nat i.
Proof.
  intros [Hi Hmin]. destruct (searchFrom_spec l q 0) as [[_ Hn]|(i' & [Hi' Hmin'] & ->)].
  - by destruct (Hn i).
  - apply Hmin in Hi'. apply Hmin' in Hi. lia.
Qed.

Lemma searchFrom_occurs (l q : list Z) (j : nat) :
  occursAt l q j -> exists i, firstOccurrence l q i /\ searchFrom 0 l q = Z.of_nat i.
Proof.
  intros Hj. destruct (searchFrom_spec l q 0) as [[_ Hn]|(i & Hi & ->)].
  - by destruct (Hn j).
  - exists i. split; [done|lia].
Qed.

(** ** The snippet window *)

Lemma MaxInt_val : MaxInt = 9223372036854775807.
Proof. reflexivity. Qed.

Lemma MinInt_val : MinInt = -9223372036854775808.
Proof. reflexivity. Qed.

Lemma extractSnippet_none (l : list Z) (query : gostring) (N : Z) :
  searchFrom 0 l (runes query) = -1 -> extractSnippet l query N = Done [].
Proof. intros H. unfold extractSnippet. by rewrite H. Qed.

(** Inside the range of [int] the snippet is the window around the first
    occurrence. *)
Lemma extractSnippet_window (l : list Z) (query : gostring) (N : Z) (i : nat) :
  firstOccurrence l (runes query) i ->
  0 <= N -> Z.of_nat i + len (runes query) + N <= MaxInt ->
  extractSnippet l query N =
    Done (string_of_runes
            (substring l (Z.max 0 (Z.of_nat i - N))
                         (Z.min (len l) (Z.of_nat i + len (runes query) + N)))).
Proof.
  intros Hfirst HN Hmax. pose proof (occursAt_bound _ _ _ (proj1 Hfirst)) as Hb.
  unfold extractSnippet. cbv zeta.
  rewrite (searchFrom_first _ _ _ Hfirst).
  pose proof (len_nonneg (runes query)) as Hq. pose proof MaxInt_val. pose proof MinInt_val.
  destruct (Z.of_nat i =? -1) eqn:E; [lia|]. clear E.
  unfold int_sub, int_add.
  rewrite (wrap_small (Z.of_nat i - N)) by lia.
  rewrite (wrap_small (Z.of_nat i + len (runes query))) by lia.
  rewrite (wrap_small (Z.of_nat i + len (runes query) + N)) by lia.
  assert (Hs : (if Z.of_nat i - N <? 0 then 0 else Z.of_nat i - N)
               = Z.max 0 (Z.of_nat i - N)) by (destruct (Z.ltb_spec (Z.of_nat i - N) 0); lia).
  assert (He : (if len l <? Z.of_nat i + len (runes query) + N then len l
                else Z.of_nat i + len (runes query) + N)
               = Z.min (len l) (Z.of_nat i + len (runes query) + N)).
  { destruct (Z.ltb_spec (len l) (Z.of_nat i + len (runes query) + N)); lia. }
  rewrite Hs, He. unfold slice.
  assert (Hl : Z.of_nat i + len (runes query) <= len l) by (unfold len; lia).
  destruct (_ && _) eqn:Hok; [reflexivity|]. exfalso. lia.
Qed.

Lemma substring_length {A} (l : list A) (i qLen N : Z) :
  0 <= i -> 0 <= qLen -> 0 <= N ->
  len (substring l (Z.max 0 (i - N)) (Z.min (len l) (i + qLen + N))) <= qLen + 2 * N.
Proof.
  intros Hi Hq HN. unfold substring, len. rewrite length_take. lia.
Qed.

Lemma substring_match {A} (l q : list A) (i : nat) :
  occursAt l q i ->
  substring l (Z.max 0 (Z.of_nat i - 0)) (Z.min (len l) (Z.of_nat i + len q + 0)) = q.
Proof.
  intros (pre & post & -> & <-). unfold substring, len.
  rewrite !length_app.
  replace (Z.to_nat (Z.max 0 (Z.of_nat (length pre) - 0))) with (length pre) by lia.
  replace (Z.to_nat _) with (length q) by lia.
  rewrite drop_app_length. by rewrite take_app_length.
Qed.

(** Inside the range of [int] the extractor never panics. *)
Lemma extractSnippet_total (l : list Z) (query : gostring) (N : Z) :
  0 <= N -> len l + N <= MaxInt -> exists s, extractSnippet l query N = Done s.
Proof.
  intros HN Hmax. destruct (searchFrom_spec l (runes query) 0) as [[Hs _]|(i & Hi & _)].
  - exists []. by apply extractSnippet_none.
  - eexists. apply (extractSnippet_window _ _ _ i); [done|done|].
    pose proof (occursAt_bound _ _ _ (proj1 Hi)). unfold len in *. lia.
Qed.

(** ** The scanner *)

Lemma dropCR_length (data : gostring) : (length (dropCR data) <= length data)%nat.
Proof.
  induction data as [|b [|c data] IH]; simpl in *; try lia.
  destruct (Byte.eqb b carriage); simpl; lia.
Qed.

Lemma scanTokens_short (data cur : gostring) (fail : option error) :
  len cur < MaxScanTokenSize ->
  Forall (fun token => len token < MaxScanTokenSize) (scanTokens cur data fail).1.
Proof.
  revert cur. induction data as [|b data IH]; intros cur Hcur; cbn [scanTokens].
  - pose proof (dropCR_length cur) as Hd.
    destruct cur as [|c cur]; cbn [fst]; [constructor|].
    constructor; [|constructor]. unfold len in *. lia.
  - destruct (Byte.eqb b newline).
    + specialize (IH [] ltac:(done)). destruct (scanTokens [] data fail) as [tokens err].
      cbn [fst] in *. constructor; [|done].
      pose proof (dropCR_length cur). unfold len in *. lia.
    + destruct (MaxScanTokenSize <=? len cur + 1) eqn:E; cbn [fst]; [constructor|].
      apply IH. rewrite len_app. unfold len at 2. cbn [length]. lia.
Qed.

Lemma scanLines_short (r : Reader) :
  Forall (fun line => len line < MaxScanTokenSize) (scanLines r).1.
Proof. apply scanTokens_short. done. Qed.

(** ** One line of the scan *)

Lemma scanQuery_Done (lineText : gostring) (N : Z) rs lr (q : gostring) rs' lr' :
  cached lineText lr ->
  scanQuery lineText N (rs, lr) q = Done (rs', lr') ->
  cached lineText lr' /\
  forall q', rs' !! q' =
    (if Contains lineText q && bool_decide (q = q') then hit lineText q N else id)
      <$> rs !! q'.
Proof.
  intros Hc. unfold scanQuery.
  destruct (Contains lineText q) eqn:Hin; simpl.
  2:{ intros [= <- <-]. split; [done|]. intros q'. by rewrite option_fmap_id. }
  destruct (rs !! q) as [res|] eqn:Hres; [|done].
  assert (Hrunes : match lr with None => runes lineText | Some rs0 => rs0 end
                   = runes lineText).
  { destruct Hc as [->| ->]; done. }
  rewrite Hrunes.
  destruct (len (Snippets res) <? MaxSnippets) eqn:Hlen.
  - destruct (extractSnippet (runes lineText) q N) as [s|] eqn:Hs; [|done].
    simpl. intros [= <- <-]. split; [by right|]. intros q'.
    case_bool_decide as Hq.
    + subst q'. rewrite lookup_insert_eq, Hres. simpl. f_equal.
      unfold hit, snippetOf. by rewrite Hlen, Hs.
    + rewrite lookup_insert_ne by done. by rewrite option_fmap_id.
  - intros [= <- <-]. split; [done|]. intros q'.
    case_bool_decide as Hq.
    + subst q'. rewrite lookup_insert_eq, Hres. simpl. f_equal.
      unfold hit. by rewrite Hlen.
    + rewrite lookup_insert_ne by done. by rewrite option_fmap_id.
Qed.

Lemma scanQuery_total (lineText : gostring) (N : Z) rs lr (q : gostring) :
  cached lineText lr -> 0 <= N -> len (runes lineText) + N <= MaxInt ->
  is_Some (rs !! q) ->
  exists st, scanQuery lineText N (rs, lr) q = Done st.
Proof.
  intros Hc HN Hmax [res Hres]. unfold scanQuery.
  destruct (Contains lineText q); simpl; [|by eexists].
  rewrite Hres.
  assert (Hrunes : match lr with None => runes lineText | Some rs0 => rs0 end
                   = runes lineText).
  { destruct Hc as [->| ->]; done. }
  rewrite Hrunes.
  destruct (len (Snippets res) <? MaxSnippets); [|by eexists].
  destruct (extractSnippet_total (runes lineText) q N HN Hmax) as [s ->].
  simpl. by eexists.
Qed.

Lemma iter_shift {A} (f : A -> A) (k : nat) (x : A) :
  Nat.iter k f (f x) = f (Nat.iter k f x).
Proof. induction k as [|k IH]; simpl; [done|by rewrite IH]. Qed.

Lemma queries_Done (lineText : gostring) (N : Z) (queries : list gostring) rs lr st :
  cached lineText lr ->
  foldO (scanQuery lineText N) (rs, lr) queries = Done st ->
  forall q, st.1 !! q = afterLine lineText q N (occurrences q queries) <$> rs !! q.
Proof.
  revert rs lr. induction queries as [|q0 queries IH]; intros rs lr Hc; cbn [foldO].
  - intros [= <-] q. unfold afterLine. simpl. destruct (Contains lineText q); by rewrite option_fmap_id.
  - destruct (scanQuery lineText N (rs, lr) q0) as [[rs1 lr1]|] eqn:H0; [|done].
    simpl. intros Hrest q.
    apply scanQuery_Done in H0 as [Hc1 H0]; [|done].
    rewrite (IH _ _ Hc1 Hrest q), H0.
    destruct (rs !! q) as [res|]; [|done]. simpl. f_equal.
    unfold afterLine. simpl.
    case_bool_decide as Hq.
    + subst q0. destruct (Contains lineText q); simpl; [|done].
      by rewrite iter_shift.
    + by rewrite andb_false_r.
Qed.

Lemma scanLine_Done (N : Z) (queries : list gostring) rs rs' (lineText : gostring) :
  scanLine N queries rs lineText = Done rs' ->
  forall q, rs' !! q = afterLine lineText q N (occurrences q queries) <$> rs !! q.
Proof.
  unfold scanLine.
  destruct (foldO _ _ _) as [st|] eqn:H; [|done]. simpl. intros [= <-].
  eapply queries_Done; [|done]. by left.
Qed.

Lemma queries_total (lineText : gostring) (N : Z) (queries : list gostring) rs lr :
  cached lineText lr -> 0 <= N -> len (runes lineText) + N <= MaxInt ->
  (forall q, q ∈ queries -> is_Some (rs !! q)) ->
  exists st, foldO (scanQuery lineText N) (rs, lr) queries = Done st.
Proof.
  intros Hc HN Hmax. revert rs lr Hc.
  induction queries as [|q0 queries IH]; intros rs lr Hc Hall; cbn [foldO].
  - by eexists.
  - destruct (scanQuery_total lineText N rs lr q0 Hc HN Hmax) as [[rs1 lr1] H0].
    { apply Hall. by left. }
    rewrite H0. simpl.
    apply scanQuery_Done in H0 as [Hc1 H0]; [|done].
    apply IH; [done|]. intros q Hq. rewrite H0.
    apply fmap_is_Some, Hall. by right.
Qed.

Lemma scanLine_total (N : Z) (queries : list gostring) rs (lineText : gostring) :
  0 <= N -> len (runes lineText) + N <= MaxInt ->
  (forall q, q ∈ queries -> is_Some (rs !! q)) ->
  exists rs', scanLine N queries rs lineText = Done rs'.
Proof.
  intros HN Hmax Hall. unfold scanLine.
  destruct (queries_total lineText N queries rs None) as [st ->]; try done.
  - by left.
  - simpl. by eexists.
Qed.

(** ** All the lines *)

Lemma lines_Done (N : Z) (queries lines : list gostring) rs rs' :
  foldO (scanLine N queries) rs lines = Done rs' ->
  forall q, rs' !! q = afterLines lines q N (occurrences q queries) <$> rs !! q.
Proof.
  revert rs. induction lines as [|lineText lines IH]; intros rs; cbn [foldO].
  - intros [= <-] q. unfold afterLines. simpl. by rewrite option_fmap_id.
  - destruct (scanLine N queries rs lineText) as [rs1|] eqn:H1; [|done].
    simpl. intros Hrest q.
    rewrite (IH _ Hrest q), (scanLine_Done _ _ _ _ _ H1 q).
    by destruct (rs !! q).
Qed.

Lemma lines_total (N : Z) (queries lines : list gostring) rs :
  0 <= N ->
  Forall (fun lineText => len (runes lineText) + N <= MaxInt) lines ->
  (forall q, q ∈ queries -> is_Some (rs !! q)) ->
  exists rs', foldO (scanLine N queries) rs lines = Done rs'.
Proof.
  intros HN Hlines. revert rs.
  induction Hlines as [|lineText lines Hmax _ IH]; intros rs Hall; cbn [foldO].
  - by eexists.
  - destruct (scanLine_total N queries rs lineText HN Hmax Hall) as [rs1 H1].
    rewrite H1. simpl. apply IH. intros q Hq.
    rewrite (scanLine_Done _ _ _ _ _ H1 q). apply fmap_is_Some, Hall, Hq.
Qed.

(** ** The result map *)

Lemma newResults_lookup (queries : list gostring) (q : gostring) :
  newResults queries !! q =
    if bool_decide (q ∈ queries) then Some (mkSearchResult q 0 []) else None.
Proof.
  unfold newResults.
  assert (H : forall m : gmap gostring SearchResult,
    foldl (fun results q0 => <[q0 := mkSearchResult q0 0 []]> results) m queries !! q
    = if bool_decide (q ∈ queries) then Some (mkSearchResult q 0 []) else m !! q).
  { induction queries as [|q0 queries IH]; intros m; simpl.
    - done.
    - rewrite IH. destruct (decide (q = q0)) as [->|Hne].
      + rewrite lookup_insert_eq.
        rewrite (bool_decide_eq_true_2 (q0 ∈ q0 :: queries)) by (by left).
        by destruct (bool_decide (q0 ∈ queries)).
      + rewrite lookup_insert_ne by done.
        destruct (decide (q ∈ queries)) as [Hin|Hnin].
        * by rewrite !bool_decide_eq_true_2 by (done || by right).
        * rewrite !bool_decide_eq_false_2; [done| |done].
          intros [?|?]%elem_of_cons; done. }
  rewrite H. by destruct (bool_decide _).
Qed.

Lemma occurrences_pos (q : gostring) (queries : list gostring) :
  q ∈ queries <-> (0 < occurrences q queries)%nat.
Proof.
  induction queries as [|q0 queries IH]; simpl.
  - split; [by intros ?%not_elem_of_nil|lia].
  - rewrite elem_of_cons, IH. case_bool_decide; split; try lia; intros; try tauto.
    + by left.
    + destruct H0; [congruence|lia].
Qed.

Lemma hit_Query lineText q N res : Query (hit lineText q N res) = Query res.
Proof. reflexivity. Qed.

Lemma iter_hit_Query lineText q N (k : nat) res :
  Query (Nat.iter k (hit lineText q N) res) = Query res.
Proof. induction k as [|k IH]; [reflexivity|exact IH]. Qed.

Lemma afterLines_Query lines q N k res : Query (afterLines lines q N k res) = Query res.
Proof.
  unfold afterLines. revert res.
  induction lines as [|l lines IH]; intros res; simpl; [done|].
  rewrite IH. unfold afterLine. destruct (Contains l q); [|done].
  apply iter_hit_Query.
Qed.

Lemma iter_hit_Count lineText q N (k : nat) res :
  0 <= Count res -> Count res + Z.of_nat k <= MaxInt ->
  Count (Nat.iter k (hit lineText q N) res) = Count res + Z.of_nat k.
Proof.
  intros H0. induction k as [|k IH]; intros Hmax; simpl; [lia|].
  unfold int_add. rewrite IH by lia. rewrite wrap_small; [lia|].
  pose proof MinInt_val. lia.
Qed.

Lemma length_matchingLines (q : gostring) (lines : list gostring) :
  (length (matchingLines q lines) <= length lines)%nat.
Proof. apply List.filter_length_le. Qed.

Lemma afterLines_Count lines q N (k : nat) res :
  0 <= Count res ->
  Count res + Z.of_nat k * len (matchingLines q lines) <= MaxInt ->
  Count (afterLines lines q N k res)
  = Count res + Z.of_nat k * len (matchingLines q lines).
Proof.
  unfold afterLines. revert res.
  induction lines as [|l lines IH]; intros res H0 Hmax; simpl in *.
  - unfold len. simpl. lia.
  - unfold afterLine at 2. destruct (Contains l q) eqn:E.
    + rewrite len_cons in Hmax. pose proof (len_nonneg (matchingLines q lines)).
      rewrite IH; rewrite iter_hit_Count; rewrite ?len_cons; try lia; nia.
    + by apply IH.
Qed.

Lemma take_take_app {A} (n : nat) (x y : list A) :
  take n (take n x ++ y) = take n (x ++ y).
Proof.
  destruct (decide (n <= length x)%nat) as [Hle|Hgt].
  - rewrite (take_app_le x y) by done.
    rewrite take_app_le by (rewrite length_take; lia).
    by rewrite take_take, Nat.min_id.
  - by rewrite (take_ge x) by lia.
Qed.

Lemma hit_Snippets lineText q N res :
  len (Snippets res) <= MaxSnippets ->
  Snippets (hit lineText q N res)
  = take 10 (Snippets res ++ [snippetOf lineText q N]).
Proof.
  unfold hit, MaxSnippets, len. cbn [Snippets]. intros Hlen.
  destruct (Z.ltb_spec (Z.of_nat (length (Snippets res))) 10).
  - rewrite take_ge; [done|]. rewrite length_app. simpl. lia.
  - rewrite take_app_le by lia. rewrite take_ge; [done|lia].
Qed.

Lemma iter_hit_Snippets lineText q N (k : nat) res :
  len (Snippets res) <= MaxSnippets ->
  Snippets (Nat.iter k (hit lineText q N) res)
  = take 10 (Snippets res ++ replicate k (snippetOf lineText q N)).
Proof.
  intros Hlen. induction k as [|k IH].
  - simpl. rewrite app_nil_r, take_ge; [done|]. unfold len, MaxSnippets in Hlen. lia.
  - rewrite Nat.iter_succ, hit_Snippets.
    + rewrite IH, take_take_app, <- app_assoc. f_equal. f_equal.
      change [snippetOf lineText q N] with (replicate 1 (snippetOf lineText q N)).
      rewrite <- replicate_add. f_equal. lia.
    + rewrite IH. unfold len, MaxSnippets. rewrite length_take. lia.
Qed.

Lemma afterLines_Snippets lines q N (k : nat) res :
  len (Snippets res) <= MaxSnippets ->
  Snippets (afterLines lines q N k res)
  = take 10 (Snippets res ++ snippetsFor q N k lines).
Proof.
  unfold afterLines, snippetsFor. revert res.
  induction lines as [|l lines IH]; intros res Hlen; simpl.
  - rewrite app_nil_r, take_ge; [done|]. unfold len, MaxSnippets in Hlen. lia.
  - unfold afterLine at 2. destruct (Contains l q) eqn:E; [|by apply IH].
    rewrite IH.
    + rewrite iter_hit_Snippets by done. simpl.
      by rewrite take_take_app, <- app_assoc.
    + rewrite iter_hit_Snippets by done. unfold len, MaxSnippets. rewrite length_take. lia.
Qed.

(** ** The snippet extractor on the whole range of [int] *)

(** C1 (code defect).  The claim: for every line, query and width [N >= 0]
    with the query in the line, the extractor returns the window from
    [max(0, matchStart - N)] to [min(lineLength, matchStart + queryLength + N)].
    Inside the range of [int] this is [extractSnippet_window] (with
    [substring_length] and [substring_match]); at the width [MaxInt] the sum
    [idx + qLen + contextSize] wraps to a negative end index and the slice
    expression panics, here on the line "a" and the query "a", where the
    claim asks for the snippet "a".  The width reaches [extractSnippet]
    through the flag [-n] of [Run]. *)
Theorem extractSnippet_huge_width_panics :
  firstOccurrence (runes (lit "a")) (runes (lit "a")) 0 /\
  0 <= MaxInt /\
  string_of_runes
    (substring (runes (lit "a")) (Z.max 0 (0 - MaxInt))
       (Z.min (len (runes (lit "a"))) (0 + len (runes (lit "a")) + MaxInt)))
    = lit "a" /\
  extractSnippet (runes (lit "a")) (lit "a") MaxInt = Panic /\
  Run parseDecimal huge_width_run = Panic.
Proof.
  split; [|split; [|split; [|split]]].
  - split.
    + exists [], []. split; reflexivity.
    + intros j _. lia.
  - vm_compute. discriminate.
  - vm_compute. reflexivity.
  - vm_compute. reflexivity.
  - vm_compute. reflexivity.
Qed.

(** ** Containment in bytes and in runes *)

Lemma runes_occurs (lineText q : gostring) (j : nat) :
  ValidString q = true -> occursAt lineText q j ->
  exists i, occursAt (runes lineText) (runes q) i.
Proof.
  intros Hv (pre & post & -> & _).
  destruct q as [|b q].
  - exists 0%nat. by exists [], (runes (pre ++ [] ++ post)).
  - exists (length (runes pre)), (runes pre), (runes post). split; [|done].
    rewrite runes_app_clean.
    + f_equal. by apply runes_app_valid.
    + apply ValidString_clean in Hv. exact Hv.
Qed.

(** C9 (amended).  For a query that is valid UTF-8: whenever the containment
    check of [SearchStream] succeeds for the query on a line, the rune search of
    [extractSnippet] finds an occurrence, so the branch for [idx == -1] is not
    taken; and whenever the rune search finds nothing, for any query and any
    width, [extractSnippet] returns the empty string and does not panic. *)
Theorem contains_implies_rune_match (lineText q : gostring) :
  ValidString q = true ->
  (Contains lineText q = true ->
   exists i, firstOccurrence (runes lineText) (runes q) i /\
             searchFrom 0 (runes lineText) (runes q) = Z.of_nat i /\
             searchFrom 0 (runes lineText) (runes q) <> -1) /\
  (forall (lineRunes : list Z) (query : gostring) (N : Z),
     searchFrom 0 lineRunes (runes query) = -1 ->
     extractSnippet lineRunes query N = Done []).
Proof.
  intros Hv. split.
  - intros Hin. apply Contains_spec in Hin as [j Hj].
    destruct (runes_occurs _ _ _ Hv Hj) as [i' Hi'].
    destruct (searchFrom_occurs _ _ _ Hi') as (i & Hfirst & Hs).
    exists i. repeat split; try done; try apply Hfirst. lia.
  - intros lineRunes query N. apply extractSnippet_none.
Qed.

Lemma contains_implies_rune_match_witness :
  exists i, firstOccurrence (runes (lit "prefix MATCH suffix")) (runes (lit "MATCH")) i /\
            searchFrom 0 (runes (lit "prefix MATCH suffix")) (runes (lit "MATCH")) = Z.of_nat i /\
            searchFrom 0 (runes (lit "prefix MATCH suffix")) (runes (lit "MATCH")) <> -1.
Proof.
  apply (contains_implies_rune_match (lit "prefix MATCH suffix") (lit "MATCH")).
  - vm_compute. reflexivity.
  - vm_compute. reflexivity.
Defined.

(** C9 as stated fails on a query that is not valid UTF-8: the byte A9 is
    contained in the line C3 A9 (the letter e with acute accent), but as runes
    the query is U+FFFD and the line is U+00E9. *)
Lemma continuation_byte_query_not_found :
  Contains ["195"; "169"]%byte ["169"]%byte = true /\
  searchFrom 0 (runes ["195"; "169"]%byte) (runes ["169"]%byte) = -1 /\
  extractSnippet (runes ["195"; "169"]%byte) ["169"]%byte 20 = Done [].
Proof. vm_compute. repeat split; reflexivity. Qed.

(** ** The scenarios of the test suite *)

Lemma recordOf_Some (found : outcome (result (gmap gostring SearchResult)))
    (q : gostring) (res : SearchResult) :
  recordOf found q = Some res ->
  exists rs, found = Done (Success rs) /\ rs !! q = Some res.
Proof.
  destruct found as [[rs|e]|]; simpl; [|done|done].
  intros H. by exists rs.
Qed.

(** C6 (amended).  Scanning the input
    "12345678901234567890TARGET12345678901234567890", which has 46 characters,
    for the query "TARGET": with context width 20 the snippet is the entire
    input, with context width 5 it is "67890TARGET12345". *)
Theorem target_scenario :
  len (runes target_line) = 46 /\
  (exists rs, SearchStream (mkReader target_line None) [lit "TARGET"] 20 = Done (Success rs) /\
     rs !! lit "TARGET" = Some (mkSearchResult (lit "TARGET") 1 [target_line])) /\
  (exists rs, SearchStream (mkReader target_line None) [lit "TARGET"] 5 = Done (Success rs) /\
     rs !! lit "TARGET" = Some (mkSearchResult (lit "TARGET") 1 [lit "67890TARGET12345"])).
Proof.
  split; [vm_compute; reflexivity|].
  split; apply recordOf_Some; vm_compute; reflexivity.
Qed.

(** C6 as stated fails: the input of the scenario does not have 48 characters. *)
Lemma target_line_has_not_48_characters :
  ~ (len (runes target_line) = 48 /\
     exists rs res, SearchStream (mkReader target_line None) [lit "TARGET"] 20 = Done (Success rs) /\
       rs !! lit "TARGET" = Some res /\ Snippets res = [target_line]).
Proof. intros [H _]. vm_compute in H. discriminate. Qed.

(** A last line without its newline is read as if it had one. *)
Lemma scanTokens_unterminated (data cur : gostring) (fail : option error) :
  (data = [] -> cur <> []) -> last data <> Some newline ->
  scanTokens cur (data ++ [newline]) fail = scanTokens cur data fail.
Proof.
  revert cur. induction data as [|b data IH]; intros cur Hcur Hlast.
  - specialize (Hcur eq_refl). cbn [app scanTokens].
    replace (Byte.eqb newline newline) with true by reflexivity. cbn [scanTokens].
    by destruct cur.
  - rewrite <- app_comm_cons. cbn [scanTokens].
    destruct (Byte.eqb b newline) eqn:Hb.
    + apply Byte.byte_dec_bl in Hb as ->.
      rewrite IH; [done| |].
      * intros ->. by destruct Hlast.
      * destruct data; [by destruct Hlast|]. by rewrite last_cons_cons in Hlast.
    + destruct (MaxScanTokenSize <=? len cur + 1); [done|].
      apply IH.
      * intros _. by destruct cur.
      * destruct data as [|c data]; [done|]. by rewrite last_cons_cons in Hlast.
Qed.

(** C7.  The stream searcher processes a trailing partial line that is not
    terminated by a newline like any other line: a non-empty input that does
    not end in a newline is scanned into the same lines as the input with the
    newline added; and for the input "no match here\nprefix MATCH suffix", the
    query "MATCH" and the context width 10, the result has the count 1 and
    the single snippet "prefix MATCH suffix". *)
Theorem trailing_line_is_scanned :
  (forall (data : gostring) (fail : option error),
     data <> [] -> last data <> Some newline ->
     scanLines (mkReader (data ++ [newline]) fail) = scanLines (mkReader data fail)) /\
  (scanLines (mkReader lazy_content None)).1
    = [lit "no match here"; lit "prefix MATCH suffix"] /\
  exists rs, SearchStream (mkReader lazy_content None) [lit "MATCH"] 10 = Done (Success rs) /\
    rs !! lit "MATCH" = Some (mkSearchResult (lit "MATCH") 1 [lit "prefix MATCH suffix"]).
Proof.
  split; [|split].
  - intros data fail Hdata Hlast. unfold scanLines. cbn [content failure].
    apply scanTokens_unterminated; [|done]. by intros ->.
  - vm_compute. reflexivity.
  - apply recordOf_Some. vm_compute. reflexivity.
Qed.

Lemma trailing_line_is_scanned_witness :
  scanLines (mkReader (lazy_content ++ [newline]) None) = scanLines (mkReader lazy_content None).
Proof.
  apply (proj1 trailing_line_is_scanned lazy_content None).
  - vm_compute. discriminate.
  - vm_compute. discriminate.
Defined.

(** ** [ParseArgs] *)

Lemma Split_not_nil (s : gostring) (sep : byte) : Split s sep <> [].
Proof.
  destruct s as [|b s]; cbn [Split]; [done|].
  destruct (Byte.eqb b sep); [done|]. by destruct (Split s sep).
Qed.

(** [Split] cuts at the separators and nowhere else. *)
Lemma Split_Join (s : gostring) (sep : byte) : Join (Split s sep) sep = s.
Proof.
  induction s as [|b s IH]; cbn [Split]; [done|].
  pose proof (Split_not_nil s sep) as Hne.
  destruct (Byte.eqb b sep) eqn:Hb.
  - apply Byte.byte_dec_bl in Hb as ->.
    cbn [Join]. destruct (Split s sep) as [|p ps] eqn:E; [done|].
    simpl. f_equal. exact IH.
  - destruct (Split s sep) as [|p ps] eqn:E; [done|].
    cbn [Join] in *. destruct ps; simpl; by rewrite <- IH.
Qed.

Lemma Split_no_sep (s : gostring) (sep : byte) :
  Forall (fun part => sep ∉ part) (Split s sep).
Proof.
  induction s as [|b s IH]; cbn [Split].
  - constructor; [|constructor]. apply not_elem_of_nil.
  - destruct (Byte.eqb b sep) eqn:Hb.
    + constructor; [apply not_elem_of_nil|done].
    + destruct (Split s sep) as [|p ps]; [constructor; [|constructor]|].
      * intros Hin. apply list_elem_of_singleton in Hin as ->.
        by rewrite (Byte.byte_dec_lb eq_refl) in Hb.
      * inversion IH; subst. constructor; [|done].
        intros Hin. apply elem_of_cons in Hin as [->|Hin]; [|done].
        by rewrite (Byte.byte_dec_lb eq_refl) in Hb.
Qed.

Lemma validQueriesOf_filter (queries : list gostring) :
  validQueriesOf queries = List.filter nonEmpty queries.
Proof.
  unfold validQueriesOf.
  assert (H : forall valid,
    foldl (fun valid q => if isEmpty q then valid else valid ++ [q]) valid queries
    = valid ++ List.filter nonEmpty queries).
  { induction queries as [|q queries IH]; intros valid; simpl.
    - by rewrite app_nil_r.
    - rewrite IH. unfold nonEmpty. destruct (isEmpty q); simpl; [done|].
      by rewrite <- app_assoc. }
  apply (H []).
Qed.

Lemma filter_nonEmpty_nil (queries : list gostring) :
  List.filter nonEmpty queries = [] <-> Forall (fun q => q = []) queries.
Proof.
  induction queries as [|q queries IH]; simpl.
  - split; [constructor|done].
  - destruct q as [|b q]; simpl.
    + rewrite IH. split; [by constructor|]. by inversion 1.
    + split; [done|]. inversion 1; subst. done.
Qed.

(** C3.  For every executable path whose base name, extension stripped,
    splits on the underscore into at least two segments with at least one
    non-empty segment after the first, and for every argument list with at
    least one positional argument, [ParseArgs] succeeds and returns exactly the
    non-empty segments after the first, in their order, as the query list. *)
Theorem ParseArgs_queries (args : list gostring) (execPath : gostring) :
  args <> [] ->
  2 <= len (segments execPath) ->
  (exists q, q ∈ drop 1 (segments execPath) /\ q <> []) ->
  exists inputFile rest,
    args = inputFile :: rest /\
    ParseArgs args execPath =
      Success (mkConfig inputFile
                 (List.filter nonEmpty (drop 1 (segments execPath)))
                 DefaultContextSize).
Proof.
  intros Hargs Hlen (q & Hq & Hne).
  destruct args as [|inputFile rest]; [done|]. exists inputFile, rest. split; [done|].
  unfold ParseArgs. fold (segments execPath).
  destruct (len (segments execPath) <? 2) eqn:E; [lia|].
  rewrite validQueriesOf_filter.
  destruct (List.filter nonEmpty (drop 1 (segments execPath))) as [|v vs] eqn:Hf.
  - apply filter_nonEmpty_nil in Hf. rewrite Forall_forall in Hf. by destruct (Hne (Hf q Hq)).
  - reflexivity.
Qed.

Lemma ParseArgs_queries_witness :
  exists inputFile rest,
    [lit "file.txt"] = inputFile :: rest /\
    ParseArgs [lit "file.txt"] (lit "/bin/grep_error_warn") =
      Success (mkConfig inputFile
                 (List.filter nonEmpty (drop 1 (segments (lit "/bin/grep_error_warn"))))
                 DefaultContextSize).
Proof.
  apply (ParseArgs_queries [lit "file.txt"] (lit "/bin/grep_error_warn")).
  - discriminate.
  - vm_compute. discriminate.
  - exists (lit "error"). split; [|discriminate]. vm_compute. left.
Defined.

(** C4.  [ParseArgs] fails in exactly these cases: no positional argument
    (missing input); fewer than two underscore-separated segments in the base
    name of the executable, extension stripped (invalid name format); all
    segments after the first empty (no queries). *)
Theorem ParseArgs_failure (args : list gostring) (execPath : gostring) :
  ((exists e, ParseArgs args execPath = Failure e) <->
   args = [] \/ len (segments execPath) < 2 \/
   Forall (fun q => q = []) (drop 1 (segments execPath))) /\
  (args = [] -> ParseArgs args execPath = Failure ErrMissingInput) /\
  (args <> [] -> len (segments execPath) < 2 ->
   ParseArgs args execPath = Failure (ErrInvalidName (Base execPath))) /\
  (args <> [] -> 2 <= len (segments execPath) ->
   Forall (fun q => q = []) (drop 1 (segments execPath)) ->
   ParseArgs args execPath = Failure ErrNoQueries).
Proof.
  unfold ParseArgs. fold (segments execPath). rewrite validQueriesOf_filter.
  destruct args as [|inputFile rest].
  { repeat split; try done; eauto. }
  destruct (len (segments execPath) <? 2) eqn:E.
  { repeat split; try done; try lia; eauto. }
  destruct (List.filter nonEmpty (drop 1 (segments execPath))) as [|v vs] eqn:Hf.
  - apply filter_nonEmpty_nil in Hf. repeat split; try done; try lia; eauto.
  - assert (Hnot : ~ Forall (fun q => q = []) (drop 1 (segments execPath))).
    { intros H. apply filter_nonEmpty_nil in H. congruence. }
    repeat split; try done; try lia.
    + intros [e He]. done.
    + intros [?|[?|?]]; [done|lia|done].
Qed.

Lemma ParseArgs_failure_witness :
  ParseArgs [lit "file.txt"] (lit "grep") = Failure (ErrInvalidName (Base (lit "grep"))).
Proof.
  apply (ParseArgs_failure [lit "file.txt"] (lit "grep")).
  - discriminate.
  - vm_compute. reflexivity.
Defined.

(** ** [Run] *)

(** C8.  Every error (flag parse error, negative [-n], configuration error,
    file-create error, file-open error, stream read error) makes [Run] return
    the exit code 1 with one record logged to the error sink; nothing is
    written to the primary output, and nothing to the output file if it has
    been created.  In particular a negative [-n] value gives the exit code 1
    and no output. *)
Theorem Run_error_exit (ParseInt : gostring -> option Z) (ctx : AppContext) :
  (runError ParseInt ctx ->
   exists record flagMessages file,
     Run ParseInt ctx =
       Done (mkRun 1 [] [record] flagMessages
               (option_map (fun path => (path, [])) file))) /\
  (forall fl rest,
     Parse ParseInt defaultFlags (drop 1 (Args ctx)) = Success (fl, rest) ->
     contextSize fl < 0 ->
     Run ParseInt ctx =
       Done (mkRun 1 [] [mkLog (lit "Context size cannot be negative") []] [] None)).
Proof.
  split.
  - intros Herr. unfold Run, search, failed.
    destruct Herr as [e Hp|fl rest Hp Hn|fl rest e Hp Ha|fl rest e Hp Ho Hc
                     |fl rest config e Hp Ha Hr|fl rest config f e Hp Ha Hr Hs];
      rewrite Hp.
    + exit_with (@None gostring).
    + destruct (contextSize fl <? 0) eqn:E; [|lia]. exit_with (@None gostring).
    + destruct (contextSize fl <? 0); [exit_with (@None gostring)|].
      rewrite Ha. exit_with (@None gostring).
    + destruct (contextSize fl <? 0); [exit_with (@None gostring)|].
      destruct (ParseArgs rest (ExecPath ctx)); [|exit_with (@None gostring)].
      destruct (outputFile fl) eqn:Eo; [done|]. rewrite Hc. exit_with (@None gostring).
    + destruct (contextSize fl <? 0); [exit_with (@None gostring)|].
      rewrite Ha. cbn [InputFilePath].
      destruct (outputFile fl) eqn:Eo.
      * rewrite Hr. exit_with (@None gostring).
      * destruct (FileCreator ctx (_ :: _)); [exit_with (@None gostring)|].
        rewrite Hr. (do 2 eexists; eexists (Some _); reflexivity).
    + destruct (contextSize fl <? 0); [exit_with (@None gostring)|].
      rewrite Ha. cbn [InputFilePath Queries ContextSize].
      destruct (outputFile fl) eqn:Eo.
      * rewrite Hr, Hs. exit_with (@None gostring).
      * destruct (FileCreator ctx (_ :: _)); [exit_with (@None gostring)|].
        rewrite Hr, Hs. (do 2 eexists; eexists (Some _); reflexivity).
  - intros fl rest Hp Hn. unfold Run. rewrite Hp.
    destruct (contextSize fl <? 0) eqn:E; [done|lia].
Qed.

Lemma Run_error_exit_witness :
  exists record flagMessages file,
    Run parseDecimal negative_width_run =
      Done (mkRun 1 [] [record] flagMessages
              (option_map (fun path => (path, [])) file)).
Proof.
  apply (proj1 (Run_error_exit parseDecimal negative_width_run)).
  apply (NegativeContextSize parseDecimal negative_width_run
           (mkFlags [] (-5)) [lit "dummy.log"]).
  - vm_compute. reflexivity.
  - vm_compute. reflexivity.
Defined.

(** ** The scan of a stream *)

Lemma SearchStream_unfold (r : Reader) (queries : list gostring) (N : Z) :
  SearchStream r queries N =
    do rs <- resultsAfter N queries (scanLines r).1;
    Done (match (scanLines r).2 with
          | Some e => Failure (ErrReadStream e)
          | None => Success rs
          end).
Proof.
  unfold SearchStream, resultsAfter. destruct (scanLines r) as [lines err]. simpl.
  destruct (foldO _ _ _); simpl; [|done]. by destruct err.
Qed.

Lemma resultsAfter_lookup (N : Z) (queries lines : list gostring) rs (q : gostring) :
  resultsAfter N queries lines = Done rs ->
  q ∈ queries ->
  rs !! q = Some (afterLines lines q N (occurrences q queries) (mkSearchResult q 0 [])).
Proof.
  intros Hrs Hq. unfold resultsAfter in Hrs.
  rewrite (lines_Done _ _ _ _ _ Hrs q), newResults_lookup.
  by rewrite bool_decide_eq_true_2.
Qed.

Lemma resultsAfter_keys (N : Z) (queries lines : list gostring) rs (q : gostring) :
  resultsAfter N queries lines = Done rs ->
  is_Some (rs !! q) <-> q ∈ queries.
Proof.
  intros Hrs. unfold resultsAfter in Hrs.
  rewrite (lines_Done _ _ _ _ _ Hrs q), newResults_lookup, fmap_is_Some.
  case_bool_decide; split; try done.
  all: by intros [? ?].
Qed.

Lemma short_line_safe (N : Z) (lineText : gostring) :
  safeWidth N -> len lineText < MaxScanTokenSize ->
  len (runes lineText) + N <= MaxInt.
Proof.
  unfold safeWidth. intros HN Hlen.
  pose proof (runes_length lineText). unfold len in *. lia.
Qed.

Lemma resultsAfter_total (N : Z) (queries lines : list gostring) :
  safeWidth N ->
  Forall (fun lineText => len lineText < MaxScanTokenSize) lines ->
  exists rs, resultsAfter N queries lines = Done rs.
Proof.
  intros HN Hshort. apply lines_total.
  - apply HN.
  - eapply Forall_impl; [exact Hshort|]. intros l Hl. by apply short_line_safe.
  - intros q Hq. rewrite newResults_lookup. by rewrite bool_decide_eq_true_2.
Qed.

Lemma afterLines_snoc (before : list gostring) (lineText q : gostring) N k res :
  afterLines (before ++ [lineText]) q N k res
  = afterLine lineText q N k (afterLines before q N k res).
Proof. unfold afterLines. by rewrite foldl_app. Qed.

Lemma matchingLines_app (q : gostring) (a b : list gostring) :
  matchingLines q (a ++ b) = matchingLines q a ++ matchingLines q b.
Proof. apply List.filter_app. Qed.

Lemma stream_prefixes_short (r : Reader) (before rest : list gostring) (lineText : gostring) :
  (scanLines r).1 = before ++ lineText :: rest ->
  Forall (fun l => len l < MaxScanTokenSize) before /\
  Forall (fun l => len l < MaxScanTokenSize) (before ++ [lineText]).
Proof.
  intros Hlines. pose proof (scanLines_short r) as Hs. rewrite Hlines in Hs.
  apply Forall_app in Hs as [Hb Hl]. inversion Hl; subst.
  split; [done|]. apply Forall_app. split; [done|]. by constructor.
Qed.

Lemma initial_Count (lines : list gostring) (q : gostring) (N : Z) (k : nat) :
  Z.of_nat k * len lines <= MaxInt ->
  Count (afterLines lines q N k (mkSearchResult q 0 []))
  = Z.of_nat k * len (matchingLines q lines).
Proof.
  intros Hmax. pose proof (length_matchingLines q lines) as Hle.
  rewrite afterLines_Count; cbn [Count]; unfold len in *; nia.
Qed.

(** The step of one line, for a query that stands [k] times in the list. *)
Lemma line_step (r : Reader) (queries : list gostring) (N : Z) (q : gostring)
    (before : list gostring) (lineText : gostring) (rest : list gostring) :
  q ∈ queries -> safeWidth N ->
  (scanLines r).1 = before ++ lineText :: rest ->
  exists rs rs',
    resultsAfter N queries before = Done rs /\
    resultsAfter N queries (before ++ [lineText]) = Done rs' /\
    rs !! q = Some (afterLines before q N (occurrences q queries) (mkSearchResult q 0 [])) /\
    rs' !! q = Some (afterLine lineText q N (occurrences q queries)
                       (afterLines before q N (occurrences q queries)
                          (mkSearchResult q 0 []))).
Proof.
  intros Hq HN Hlines. destruct (stream_prefixes_short _ _ _ _ Hlines) as [Hb Hbl].
  destruct (resultsAfter_total N queries before HN Hb) as [rs Hrs].
  destruct (resultsAfter_total N queries _ HN Hbl) as [rs' Hrs'].
  exists rs, rs'. repeat split; try done.
  - by apply resultsAfter_lookup.
  - rewrite <- afterLines_snoc. by apply resultsAfter_lookup.
Qed.

(** C2 (amended).  For every input stream, every query [q] that stands once
    in the query list and every line of the stream, with a context width
    for which the index arithmetic stays in range and fewer lines than the
    largest [int]: if [q] does not occur in the line, the scan of the line
    leaves the record of [q] (count and snippets) unchanged; if [q] occurs in
    the line, once or many times, the scan of the line increments the count
    of [q] by exactly 1. *)
Theorem scan_counts_line_once (r : Reader) (queries : list gostring) (N : Z)
    (q : gostring) (before : list gostring) (lineText : gostring)
    (rest : list gostring) :
  occurrences q queries = 1%nat ->
  safeWidth N ->
  (scanLines r).1 = before ++ lineText :: rest ->
  len (scanLines r).1 <= MaxInt ->
  exists rs rs' res res',
    resultsAfter N queries before = Done rs /\ rs !! q = Some res /\
    resultsAfter N queries (before ++ [lineText]) = Done rs' /\ rs' !! q = Some res' /\
    (Contains lineText q = false -> res' = res) /\
    (Contains lineText q = true -> Count res' = Count res + 1).
Proof.
  intros Hone HN Hlines Hmax.
  assert (Hq : q ∈ queries) by (apply occurrences_pos; lia).
  destruct (line_step r queries N q before lineText rest Hq HN Hlines)
    as (rs & rs' & Hrs & Hrs' & Hres & Hres').
  rewrite Hone in *.
  exists rs, rs'. do 2 eexists. split; [exact Hrs|]. split; [exact Hres|].
  split; [exact Hrs'|]. split; [exact Hres'|]. split.
  - unfold afterLine. by intros ->.
  - unfold afterLine. intros ->.
    rewrite Hlines, len_app, len_cons in Hmax.
    pose proof (len_nonneg rest). pose proof (len_nonneg before).
    pose proof (length_matchingLines q before).
    rewrite (iter_hit_Count _ _ _ 1); rewrite initial_Count by lia;
      unfold len in *; lia.
Qed.

Lemma scan_counts_line_once_witness :
  exists rs rs' res res',
    resultsAfter 10 [lit "MATCH"] [lit "no match here"] = Done rs /\
    rs !! lit "MATCH" = Some res /\
    resultsAfter 10 [lit "MATCH"] ([lit "no match here"] ++ [lit "prefix MATCH suffix"])
      = Done rs' /\
    rs' !! lit "MATCH" = Some res' /\
    (Contains (lit "prefix MATCH suffix") (lit "MATCH") = false -> res' = res) /\
    (Contains (lit "prefix MATCH suffix") (lit "MATCH") = true -> Count res' = Count res + 1).
Proof.
  apply (scan_counts_line_once (mkReader lazy_content None) [lit "MATCH"] 10
           (lit "MATCH") [lit "no match here"] (lit "prefix MATCH suffix") []).
  - vm_compute. reflexivity.
  - vm_compute. split; discriminate.
  - vm_compute. reflexivity.
  - vm_compute. discriminate.
Defined.

(** C2 as stated fails when the query stands twice in the query list: the
    line "a" takes the count of the query "a" from 0 to 2. *)
Lemma duplicate_query_counts_twice :
  (scanLines (mkReader (lit "a") None)).1 = [] ++ lit "a" :: [] /\
  lit "a" ∈ twice /\
  Contains (lit "a") (lit "a") = true /\
  exists rs rs',
    resultsAfter 20 twice [] = Done rs /\
    rs !! lit "a" = Some (mkSearchResult (lit "a") 0 []) /\
    resultsAfter 20 twice ([] ++ [lit "a"]) = Done rs' /\
    rs' !! lit "a" = Some (mkSearchResult (lit "a") 2 [lit "a"; lit "a"]).
Proof.
  split; [vm_compute; reflexivity|].
  split; [by left|].
  split; [vm_compute; reflexivity|].
  do 2 eexists. repeat split; vm_compute; reflexivity.
Qed.

(** ** The cap on the snippets *)

Lemma initial_Snippets (lines : list gostring) (q : gostring) (N : Z) (k : nat) :
  Snippets (afterLines lines q N k (mkSearchResult q 0 []))
  = take 10 (snippetsFor q N k lines).
Proof. rewrite afterLines_Snippets; [done|]. unfold len, MaxSnippets. simpl. lia. Qed.

Lemma snippetsFor_snoc (q : gostring) (N : Z) (k : nat) (before : list gostring)
    (lineText : gostring) :
  snippetsFor q N k (before ++ [lineText])
  = snippetsFor q N k before
    ++ (if Contains lineText q then replicate k (snippetOf lineText q N) else []).
Proof.
  unfold snippetsFor. rewrite matchingLines_app, flat_map_app. f_equal.
  unfold matchingLines. simpl. destruct (Contains lineText q); simpl; [|done].
  by rewrite app_nil_r.
Qed.

(** With one copy of each query in the list, the snippets are those of the
    matching lines, in the order of the lines. *)
Lemma snippetsFor_once (q : gostring) (N : Z) (lines : list gostring) :
  snippetsFor q N 1 lines
  = map (fun lineText => snippetOf lineText q N) (matchingLines q lines).
Proof.
  unfold snippetsFor. induction (matchingLines q lines) as [|l ls IH]; [done|].
  cbn [flat_map map replicate app]. by f_equal.
Qed.

(** C5.  For every input stream and every query of the list, the snippet list
    recorded for the query never exceeds 10 entries, however many lines match;
    its entries are the snippets of the matching lines in the order of the
    lines, cut after the tenth; and the scan of a matching line appends a
    snippet of that line exactly when fewer than 10 snippets have been
    recorded so far for the query.  The scan completes for every context
    width for which the index arithmetic stays in range. *)
Theorem snippets_are_capped (r : Reader) (queries : list gostring) (N : Z)
    (q : gostring) (before : list gostring) (lineText : gostring)
    (rest : list gostring) :
  q ∈ queries ->
  (scanLines r).1 = before ++ lineText :: rest ->
  (safeWidth N ->
   exists rs rs',
     resultsAfter N queries before = Done rs /\
     resultsAfter N queries (before ++ [lineText]) = Done rs') /\
  (forall rs rs',
     resultsAfter N queries before = Done rs ->
     resultsAfter N queries (before ++ [lineText]) = Done rs' ->
     exists res res',
       rs !! q = Some res /\ rs' !! q = Some res' /\
       len (Snippets res) <= MaxSnippets /\
       len (Snippets res') <= MaxSnippets /\
       Snippets res' = take 10 (snippetsFor q N (occurrences q queries) (before ++ [lineText])) /\
       (Contains lineText q = true -> len (Snippets res) < MaxSnippets ->
        exists more, Snippets res' = Snippets res ++ snippetOf lineText q N :: more) /\
       (Contains lineText q = false \/ MaxSnippets <= len (Snippets res) ->
        Snippets res' = Snippets res)) /\
  (forall rs,
     SearchStream r queries N = Done (Success rs) ->
     exists res,
       rs !! q = Some res /\
       len (Snippets res) <= MaxSnippets /\
       Snippets res = take 10 (snippetsFor q N (occurrences q queries) (scanLines r).1)).
Proof.
  intros Hq Hlines. split; [|split].
  - intros HN.
    destruct (line_step r queries N q before lineText rest Hq HN Hlines)
      as (rs & rs' & Hrs & Hrs' & _). by exists rs, rs'.
  - intros rs rs' Hrs Hrs'.
    pose proof (resultsAfter_lookup _ _ _ _ q Hrs Hq) as Hres.
    pose proof (resultsAfter_lookup _ _ _ _ q Hrs' Hq) as Hres'.
    apply occurrences_pos in Hq.
    destruct (occurrences q queries) as [|k] eqn:Hk; [lia|].
    eexists _, _. split; [exact Hres|]. split; [exact Hres'|].
    rewrite !initial_Snippets. unfold len, MaxSnippets.
    rewrite snippetsFor_snoc.
    set (old := snippetsFor q N (S k) before).
    split; [rewrite length_take; lia|].
    split; [rewrite length_take; lia|].
    split; [done|]. split.
    + intros -> Hlen. rewrite length_take in Hlen.
      assert (Hold : (length old < 10)%nat) by lia.
      rewrite (take_ge old) by lia.
      rewrite take_app_ge by lia. cbn [replicate].
      destruct (10 - length old)%nat as [|n] eqn:E; [lia|].
      cbn [take]. by eexists.
    + intros [->|Hfull].
      * by rewrite app_nil_r.
      * rewrite length_take in Hfull. rewrite take_app_le by lia. done.
  - intros rs Hrs. rewrite SearchStream_unfold in Hrs.
    destruct (resultsAfter N queries (scanLines r).1) as [rs0|] eqn:H0; [|done].
    simpl in Hrs. destruct ((scanLines r).2); [done|]. injection Hrs as <-.
    eexists. split; [by apply (resultsAfter_lookup _ _ _ _ q H0)|].
    rewrite initial_Snippets. split; [|done].
    unfold len, MaxSnippets. rewrite length_take. lia.
Qed.

Lemma snippets_are_capped_witness :
  exists rs rs',
    resultsAfter 10 [lit "MATCH"] [lit "no match here"] = Done rs /\
    resultsAfter 10 [lit "MATCH"] ([lit "no match here"] ++ [lit "prefix MATCH suffix"])
      = Done rs'.
Proof.
  apply (snippets_are_capped (mkReader lazy_content None) [lit "MATCH"] 10
           (lit "MATCH") [lit "no match here"] (lit "prefix MATCH suffix") []).
  - by left.
  - vm_compute. reflexivity.
  - vm_compute. split; discriminate.
Defined.

(** ** A query that stands several times in the list *)

Lemma WriteResults_blocks (results : gmap gostring SearchResult)
    (queryOrder : list gostring) :
  WriteResults results queryOrder = flat_map (blockOf results) queryOrder.
Proof.
  induction queryOrder as [|q more IH]; cbn [WriteResults flat_map]; [done|].
  unfold blockOf at 1. destruct (results !! q); by rewrite IH.
Qed.

Lemma occurrences_filter (q : gostring) (queries : list gostring) :
  occurrences q queries
  = length (List.filter (fun q' => bool_decide (q' = q)) queries).
Proof.
  induction queries as [|q0 queries IH]; simpl; [done|].
  rewrite IH. by destruct (bool_decide (q0 = q)).
Qed.

(** C10.  When the query list holds the same string [k > 1] times, the result
    map holds one record for that string (its keys are the strings of the
    list); the count of the record increases by [k] for each line containing
    the string, so that the returned count is [k] times the number of such
    lines; and the formatter prints one block per entry of the query list, in
    the order of the list, hence the block of that record [k] times.  The
    context width is one for which the index arithmetic stays in range and
    [k] times the number of lines is within [int]. *)
Theorem duplicate_query_counts_k (r : Reader) (queries : list gostring) (N : Z)
    (q : gostring) (k : nat) (before : list gostring) (lineText : gostring)
    (rest : list gostring) :
  occurrences q queries = k ->
  (1 < k)%nat ->
  safeWidth N ->
  (scanLines r).1 = before ++ lineText :: rest ->
  Z.of_nat k * len (scanLines r).1 <= MaxInt ->
  Contains lineText q = true ->
  (exists rs rs' res res',
     resultsAfter N queries before = Done rs /\ rs !! q = Some res /\
     resultsAfter N queries (before ++ [lineText]) = Done rs' /\ rs' !! q = Some res' /\
     Count res' = Count res + Z.of_nat k) /\
  ((scanLines r).2 = None ->
   exists rs res,
     SearchStream r queries N = Done (Success rs) /\
     (forall q', is_Some (rs !! q') <-> q' ∈ queries) /\
     rs !! q = Some res /\
     Count res = Z.of_nat k * len (matchingLines q (scanLines r).1) /\
     WriteResults rs queries = flat_map (blockOf rs) queries /\
     blockOf rs q = formatBlock res /\
     length (List.filter (fun q' => bool_decide (q' = q)) queries) = k).
Proof.
  intros Hk Hk1 HN Hlines Hmax Hin.
  assert (Hq : q ∈ queries) by (apply occurrences_pos; lia).
  split.
  - destruct (line_step r queries N q before lineText rest Hq HN Hlines)
      as (rs & rs' & Hrs & Hrs' & Hres & Hres').
    rewrite Hk in *.
    exists rs, rs'. do 2 eexists. split; [exact Hrs|]. split; [exact Hres|].
    split; [exact Hrs'|]. split; [exact Hres'|].
    unfold afterLine. rewrite Hin.
    rewrite Hlines, len_app, len_cons in Hmax.
    pose proof (len_nonneg rest). pose proof (len_nonneg before).
    pose proof (length_matchingLines q before).
    rewrite iter_hit_Count; rewrite initial_Count by nia; unfold len in *; nia.
  - intros Hfail.
    destruct (resultsAfter_total N queries (scanLines r).1 HN (scanLines_short r))
      as [rs Hrs].
    pose proof (resultsAfter_lookup _ _ _ _ q Hrs Hq) as Hres. rewrite Hk in Hres.
    exists rs. eexists. split; [|split; [|split; [exact Hres|]]].
    + rewrite SearchStream_unfold, Hrs. simpl. by rewrite Hfail.
    + intros q'. by apply (resultsAfter_keys _ _ _ _ q' Hrs).
    + split; [by apply initial_Count|].
      split; [apply WriteResults_blocks|].
      split; [unfold blockOf; by rewrite Hres|].
      by rewrite <- occurrences_filter.
Qed.

Lemma duplicate_query_counts_k_witness :
  exists rs rs' res res',
    resultsAfter 20 twice [] = Done rs /\ rs !! lit "a" = Some res /\
    resultsAfter 20 twice ([] ++ [lit "a"]) = Done rs' /\ rs' !! lit "a" = Some res' /\
    Count res' = Count res + Z.of_nat 2.
Proof.
  apply (duplicate_query_counts_k (mkReader (lit "a") None) twice 20 (lit "a") 2
           [] (lit "a") []).
  - vm_compute. reflexivity.
  - lia.
  - vm_compute. split; discriminate.
  - vm_compute. reflexivity.
  - vm_compute. discriminate.
  - vm_compute. reflexivity.
Defined.

(** * Further properties *)

(** ** Bit operations of package [unicode/utf8] as arithmetic *)

Lemma land_low_high (h l n : Z) :
  0 <= n -> 0 <= l < 2 ^ n -> Z.land (h * 2 ^ n) l = 0.
Proof.
  intros Hn Hl. apply Z.bits_inj'. intros i Hi.
  rewrite Z.land_spec, Z.bits_0.
  destruct (Z.lt_ge_cases i n) as [Hlt|Hge].
  - by rewrite Z.mul_pow2_bits_low.
  - rewrite <- (Z.mod_small l (2 ^ n)) by lia.
    rewrite (Z.mod_pow2_bits_high l n i) by lia. apply andb_false_r.
Qed.

Lemma lor_low_high (h l n : Z) :
  0 <= n -> 0 <= l < 2 ^ n -> Z.lor (h * 2 ^ n) l = h * 2 ^ n + l.
Proof.
  intros Hn Hl. rewrite <- Z.add_lor_land, land_low_high by done. lia.
Qed.

Lemma land_maskx (a : Z) : Z.land a maskx = a mod 64.
Proof. change maskx with (Z.ones 6). by rewrite Z.land_ones. Qed.

Lemma land_mask2 (a : Z) : Z.land a mask2 = a mod 32.
Proof. change mask2 with (Z.ones 5). by rewrite Z.land_ones. Qed.

Lemma land_mask3 (a : Z) : Z.land a mask3 = a mod 16.
Proof. change mask3 with (Z.ones 4). by rewrite Z.land_ones. Qed.

Lemma land_mask4 (a : Z) : Z.land a mask4 = a mod 8.
Proof. change mask4 with (Z.ones 3). by rewrite Z.land_ones. Qed.

Lemma lor_tx (y : Z) : 0 <= y < 64 -> Z.lor tx y = 128 + y.
Proof. intros H. change tx with (2 * 2 ^ 6). rewrite lor_low_high; lia. Qed.

Lemma lor_t2 (y : Z) : 0 <= y < 32 -> Z.lor t2 y = 192 + y.
Proof. intros H. change t2 with (6 * 2 ^ 5). rewrite lor_low_high; lia. Qed.

Lemma lor_t3 (y : Z) : 0 <= y < 16 -> Z.lor t3 y = 224 + y.
Proof. intros H. change t3 with (14 * 2 ^ 4). rewrite lor_low_high; lia. Qed.

Lemma lor_t4 (y : Z) : 0 <= y < 8 -> Z.lor t4 y = 240 + y.
Proof. intros H. change t4 with (30 * 2 ^ 3). rewrite lor_low_high; lia. Qed.

Lemma shiftr_6 (r : Z) : Z.shiftr r 6 = r / 64.
Proof. by rewrite Z.shiftr_div_pow2. Qed.

Lemma shiftr_12 (r : Z) : Z.shiftr r 12 = r / 4096.
Proof. by rewrite Z.shiftr_div_pow2. Qed.

Lemma shiftr_18 (r : Z) : Z.shiftr r 18 = r / 262144.
Proof. by rewrite Z.shiftr_div_pow2. Qed.

(** The rune assembled from two, three and four bytes. *)
Lemma assemble2 (a b : Z) :
  0 <= b < 64 -> Z.lor (Z.shiftl a 6) b = a * 64 + b.
Proof.
  intros H. rewrite Z.shiftl_mul_pow2 by lia. by rewrite lor_low_high.
Qed.

Lemma assemble3 (a b c : Z) :
  0 <= b < 64 -> 0 <= c < 64 ->
  Z.lor (Z.lor (Z.shiftl a 12) (Z.shiftl b 6)) c = a * 4096 + b * 64 + c.
Proof.
  intros Hb Hc. rewrite !Z.shiftl_mul_pow2 by lia.
  rewrite (lor_low_high a (b * 2 ^ 6) 12) by lia.
  replace (a * 2 ^ 12 + b * 2 ^ 6) with ((a * 64 + b) * 2 ^ 6) by lia.
  rewrite lor_low_high by lia. lia.
Qed.

Lemma assemble4 (a b c d : Z) :
  0 <= b < 64 -> 0 <= c < 64 -> 0 <= d < 64 ->
  Z.lor (Z.lor (Z.lor (Z.shiftl a 18) (Z.shiftl b 12)) (Z.shiftl c 6)) d
  = a * 262144 + b * 4096 + c * 64 + d.
Proof.
  intros Hb Hc Hd. rewrite !Z.shiftl_mul_pow2 by lia.
  rewrite (lor_low_high a (b * 2 ^ 12) 18) by lia.
  replace (a * 2 ^ 18 + b * 2 ^ 12) with ((a * 64 + b) * 2 ^ 12) by lia.
  rewrite (lor_low_high _ (c * 2 ^ 6) 12) by lia.
  replace ((a * 64 + b) * 2 ^ 12 + c * 2 ^ 6) with ((a * 4096 + b * 64 + c) * 2 ^ 6) by lia.
  rewrite lor_low_high by lia. lia.
Qed.

Lemma b2z_range (b : byte) : 0 <= b2z b < 256.
Proof. unfold b2z. pose proof (Byte.to_N_bounded b). lia. Qed.

Lemma b2z_z2b (z : Z) : 0 <= z < 256 -> b2z (z2b z) = z.
Proof.
  intros H. unfold b2z, z2b. rewrite Z.mod_small by lia.
  destruct (Byte.of_N (Z.to_N z)) as [b|] eqn:E.
  - apply Byte.to_of_N in E. lia.
  - apply Byte.of_N_None_iff in E. lia.
Qed.

Lemma z2b_b2z (b : byte) : z2b (b2z b) = b.
Proof.
  pose proof (b2z_range b) as H. unfold b2z, z2b in *.
  rewrite Z.mod_small by lia. rewrite N2Z.id. by rewrite Byte.of_to_N.
Qed.

Lemma b2z_inj (a b : byte) : b2z a = b2z b -> a = b.
Proof. intros H. by rewrite <- (z2b_b2z a), <- (z2b_b2z b), H. Qed.

(** ** The decoder on the four shapes of a valid encoding *)

Ltac zdivmod := Z.div_mod_to_equations; lia.

Lemma first_ascii (s0 : Z) : s0 < 0x80 -> first s0 = ASCII.
Proof. unfold first. intros H. destruct (s0 <? 0x80) eqn:E; [done|lia]. Qed.

Lemma first_2 (s0 : Z) : 0xC2 <= s0 < 0xE0 -> first s0 = Lead 2 locb hicb.
Proof.
  unfold first. intros H.
  repeat match goal with
         | |- context [if ?c then _ else _] => destruct c eqn:?
         end; first [done|lia].
Qed.

Lemma first_3 (s0 : Z) :
  0xE0 <= s0 < 0xF0 ->
  first s0 = Lead 3 (if s0 =? 0xE0 then 0xA0 else locb) (if s0 =? 0xED then 0x9F else hicb).
Proof.
  unfold first. intros H.
  repeat match goal with
         | |- context [if ?c then _ else _] => destruct c eqn:?
         end; first [done|lia].
Qed.

Lemma first_4 (s0 : Z) :
  0xF0 <= s0 <= 0xF4 ->
  first s0 = Lead 4 (if s0 =? 0xF0 then 0x90 else locb) (if s0 =? 0xF4 then 0x8F else hicb).
Proof.
  unfold first. intros H.
  repeat match goal with
         | |- context [if ?c then _ else _] => destruct c eqn:?
         end; first [done|lia].
Qed.

Lemma decode1 (b0 : byte) (rest : gostring) :
  b2z b0 < 0x80 -> DecodeRuneInString (b0 :: rest) = (b2z b0, 1%nat).
Proof. intros H. unfold DecodeRuneInString. cbv zeta. by rewrite first_ascii. Qed.

Lemma decode2 (b0 b1 : byte) (rest : gostring) :
  0xC2 <= b2z b0 < 0xE0 -> 0x80 <= b2z b1 <= 0xBF ->
  DecodeRuneInString (b0 :: b1 :: rest)
  = ((b2z b0 - 192) * 64 + (b2z b1 - 128), 2%nat).
Proof.
  intros H0 H1. unfold DecodeRuneInString. cbv zeta. rewrite first_2 by done.
  rewrite !len_cons. pose proof (len_nonneg rest).
  destruct (len rest + 1 + 1 <? 2) eqn:E; [lia|].
  unfold locb, hicb.
  destruct ((b2z b1 <? 128) || (191 <? b2z b1)) eqn:E1; [lia|].
  cbn [Z.leb Z.compare Pos.compare Pos.compare_cont].
  rewrite land_mask2, land_maskx, assemble2 by zdivmod.
  f_equal. zdivmod.
Qed.

Lemma decode3 (b0 b1 b2 : byte) (rest : gostring) :
  0xE0 <= b2z b0 < 0xF0 ->
  (if b2z b0 =? 0xE0 then 0xA0 else 0x80) <= b2z b1
    <= (if b2z b0 =? 0xED then 0x9F else 0xBF) ->
  0x80 <= b2z b2 <= 0xBF ->
  DecodeRuneInString (b0 :: b1 :: b2 :: rest)
  = ((b2z b0 - 224) * 4096 + (b2z b1 - 128) * 64 + (b2z b2 - 128), 3%nat).
Proof.
  intros H0 H1 H2.
  assert (Hb1 : 128 <= b2z b1 <= 191)
    by (destruct (b2z b0 =? 224), (b2z b0 =? 237); lia).
  unfold DecodeRuneInString. cbv zeta. rewrite first_3 by done.
  rewrite !len_cons. pose proof (len_nonneg rest).
  destruct (len rest + 1 + 1 + 1 <? 3) eqn:E; [lia|].
  unfold locb, hicb in *.
  destruct (_ || _) eqn:E1.
  { exfalso. destruct (b2z b0 =? 224), (b2z b0 =? 237); lia. }
  cbn [Z.leb Z.compare Pos.compare Pos.compare_cont].
  destruct ((b2z b2 <? 128) || (191 <? b2z b2)) eqn:E2; [lia|].
  rewrite land_mask3, !land_maskx, assemble3 by zdivmod.
  f_equal. clear E1 H1. zdivmod.
Qed.

Lemma decode4 (b0 b1 b2 b3 : byte) (rest : gostring) :
  0xF0 <= b2z b0 <= 0xF4 ->
  (if b2z b0 =? 0xF0 then 0x90 else 0x80) <= b2z b1
    <= (if b2z b0 =? 0xF4 then 0x8F else 0xBF) ->
  0x80 <= b2z b2 <= 0xBF ->
  0x80 <= b2z b3 <= 0xBF ->
  DecodeRuneInString (b0 :: b1 :: b2 :: b3 :: rest)
  = ((b2z b0 - 240) * 262144 + (b2z b1 - 128) * 4096 + (b2z b2 - 128) * 64
     + (b2z b3 - 128), 4%nat).
Proof.
  intros H0 H1 H2 H3.
  assert (Hb1 : 128 <= b2z b1 <= 191)
    by (destruct (b2z b0 =? 240), (b2z b0 =? 244); lia).
  unfold DecodeRuneInString. cbv zeta. rewrite first_4 by done.
  rewrite !len_cons. pose proof (len_nonneg rest).
  destruct (len rest + 1 + 1 + 1 + 1 <? 4) eqn:E; [lia|].
  unfold locb, hicb in *.
  destruct (_ || _) eqn:E1.
  { exfalso. destruct (b2z b0 =? 240), (b2z b0 =? 244); lia. }
  cbn [Z.leb Z.compare Pos.compare Pos.compare_cont].
  destruct ((b2z b2 <? 128) || (191 <? b2z b2)) eqn:E2; [lia|].
  destruct ((b2z b3 <? 128) || (191 <? b2z b3)) eqn:E3; [lia|].
  rewrite land_mask4, !land_maskx, assemble4 by zdivmod.
  f_equal. clear E1 H1. zdivmod.
Qed.

(** ** Encoding and decoding are inverse to each other *)

Lemma decode_encoding (bs : gostring) (r : Z) (rest : gostring) :
  encoding bs r -> DecodeRuneInString (bs ++ rest) = (r, length bs).
Proof.
  intros [b0 H0|b0 b1 H0 H1|b0 b1 b2 H0 H1 H2|b0 b1 b2 b3 H0 H1 H2 H3]; simpl app.
  - by apply decode1.
  - by apply decode2.
  - by apply decode3.
  - by apply decode4.
Qed.

Lemma encoding_length (bs : gostring) (r : Z) :
  encoding bs r -> (1 <= length bs <= 4)%nat.
Proof. intros []; simpl; lia. Qed.

Lemma first_illegal (s0 : Z) :
  0x80 <= s0 < 0xC2 \/ 0xF4 < s0 -> first s0 = Illegal.
Proof.
  unfold first. intros H.
  repeat match goal with
         | |- context [if ?c then _ else _] => destruct c eqn:?
         end; first [done|lia].
Qed.

Lemma if_not_then {A} (c : bool) (x y : A) :
  (if c then x else y) <> x -> c = false.
Proof. by destruct c. Qed.

Ltac not_error H :=
  let E := fresh "E" in
  pose proof (if_not_then _ _ _ H) as E; rewrite E in H.

(** A step of the decoder that is not an error reads one of the four shapes. *)
Lemma decode_inv (s : gostring) :
  s <> [] -> DecodeRuneInString s <> (RuneError, 1%nat) ->
  exists bs rest r, s = bs ++ rest /\ encoding bs r.
Proof.
  intros Hs Hd. destruct s as [|b0 t0]; [done|].
  pose proof (b2z_range b0) as R0.
  destruct (Z.lt_ge_cases (b2z b0) 0x80) as [Ha|Ha].
  { exists [b0], t0, (b2z b0). split; [done|]. by constructor. }
  unfold DecodeRuneInString in Hd. cbv zeta in Hd.
  destruct (Z.lt_ge_cases (b2z b0) 0xC2) as [Hb|Hb].
  { rewrite first_illegal in Hd by lia. done. }
  destruct (Z.lt_ge_cases (b2z b0) 0xE0) as [Hc|Hc].
  { rewrite first_2 in Hd by lia. not_error Hd.
    destruct t0 as [|b1 t1]; [done|]. not_error Hd.
    exists [b0; b1], t1. eexists. split; [done|].
    constructor; unfold locb, hicb in *; lia. }
  destruct (Z.lt_ge_cases (b2z b0) 0xF0) as [Hd'|Hd'].
  { rewrite first_3 in Hd by lia. not_error Hd.
    destruct t0 as [|b1 t1]; [done|]. not_error Hd.
    cbn [Z.leb Z.compare Pos.compare Pos.compare_cont] in Hd.
    destruct t1 as [|b2 t2]; [done|]. not_error Hd.
    exists [b0; b1; b2], t2. eexists. split; [done|].
    constructor; unfold locb, hicb in *; lia. }
  destruct (Z.le_gt_cases (b2z b0) 0xF4) as [He|He].
  { rewrite first_4 in Hd by lia. not_error Hd.
    destruct t0 as [|b1 t1]; [done|]. not_error Hd.
    cbn [Z.leb Z.compare Pos.compare Pos.compare_cont] in Hd.
    destruct t1 as [|b2 t2]; [done|]. not_error Hd.
    destruct t2 as [|b3 t3]; [done|]. not_error Hd.
    exists [b0; b1; b2; b3], t3. eexists. split; [done|].
    constructor; unfold locb, hicb in *; lia. }
  rewrite first_illegal in Hd by lia. done.
Qed.

Lemma encoding_ValidRune (bs : gostring) (r : Z) : encoding bs r -> ValidRune r = true.
Proof.
  unfold ValidRune, MaxRune, surrogateMin, surrogateMax.
  intros [b0 H0|b0 b1 H0 H1|b0 b1 b2 H0 H1 H2|b0 b1 b2 b3 H0 H1 H2 H3].
  - pose proof (b2z_range b0). lia.
  - lia.
  - destruct (b2z b0 =? 224) eqn:?, (b2z b0 =? 237) eqn:?; lia.
  - destruct (b2z b0 =? 240) eqn:?, (b2z b0 =? 244) eqn:?; lia.
Qed.

Lemma encoding_EncodeRune (bs : gostring) (r : Z) : encoding bs r -> EncodeRune r = bs.
Proof.
  intros H. unfold EncodeRune, encode3, MaxRune, surrogateMin, surrogateMax.
  destruct H as [b0 H0|b0 b1 H0 H1|b0 b1 b2 H0 H1 H2|b0 b1 b2 b3 H0 H1 H2 H3].
  - pose proof (b2z_range b0).
    destruct (_ && _) eqn:E; [|lia]. by rewrite z2b_b2z.
  - set (r := (b2z b0 - 192) * 64 + (b2z b1 - 128)).
    assert (Hr : 0x80 <= r <= 0x7FF) by (unfold r; lia).
    destruct ((0 <=? r) && (r <=? 127)) eqn:E; [lia|].
    destruct ((0 <=? r) && (r <=? 2047)) eqn:E'; [|lia].
    rewrite shiftr_6, land_maskx, lor_t2, lor_tx by zdivmod.
    replace (192 + r / 64) with (b2z b0) by (unfold r; zdivmod).
    replace (128 + r mod 64) with (b2z b1) by (unfold r; zdivmod).
    by rewrite !z2b_b2z.
  - assert (Hb1 : 128 <= b2z b1 <= 191)
      by (destruct (b2z b0 =? 224), (b2z b0 =? 237); lia).
    set (r := (b2z b0 - 224) * 4096 + (b2z b1 - 128) * 64 + (b2z b2 - 128)).
    assert (Hr : 0x800 <= r <= 0xFFFF /\ ~ (0xD800 <= r <= 0xDFFF)).
    { unfold r. destruct (b2z b0 =? 224) eqn:?, (b2z b0 =? 237) eqn:?; lia. }
    clear H1.
    destruct ((0 <=? r) && (r <=? 127)) eqn:E; [lia|].
    destruct ((0 <=? r) && (r <=? 2047)) eqn:E'; [lia|].
    destruct ((r <? 0) || (1114111 <? r) || (55296 <=? r) && (r <=? 57343)) eqn:E''; [lia|].
    destruct (r <=? 65535) eqn:E3; [|lia].
    rewrite shiftr_12, shiftr_6, !land_maskx, lor_t3, !lor_tx by zdivmod.
    replace (224 + r / 4096) with (b2z b0) by (unfold r; zdivmod).
    replace (128 + r / 64 mod 64) with (b2z b1) by (unfold r; zdivmod).
    replace (128 + r mod 64) with (b2z b2) by (unfold r; zdivmod).
    by rewrite !z2b_b2z.
  - assert (Hb1 : 128 <= b2z b1 <= 191)
      by (destruct (b2z b0 =? 240), (b2z b0 =? 244); lia).
    set (r := (b2z b0 - 240) * 262144 + (b2z b1 - 128) * 4096 + (b2z b2 - 128) * 64
              + (b2z b3 - 128)).
    assert (Hr : 0x10000 <= r <= 0x10FFFF).
    { unfold r. destruct (b2z b0 =? 240) eqn:?, (b2z b0 =? 244) eqn:?; lia. }
    clear H1.
    destruct ((0 <=? r) && (r <=? 127)) eqn:E; [lia|].
    destruct ((0 <=? r) && (r <=? 2047)) eqn:E'; [lia|].
    destruct ((r <? 0) || (1114111 <? r) || (55296 <=? r) && (r <=? 57343)) eqn:E''; [lia|].
    destruct (r <=? 65535) eqn:E3; [lia|].
    rewrite shiftr_18, shiftr_12, shiftr_6, !land_maskx, lor_t4, !lor_tx by zdivmod.
    replace (240 + r / 262144) with (b2z b0) by (unfold r; zdivmod).
    replace (128 + r / 4096 mod 64) with (b2z b1) by (unfold r; zdivmod).
    replace (128 + r / 64 mod 64) with (b2z b2) by (unfold r; zdivmod).
    replace (128 + r mod 64) with (b2z b3) by (unfold r; zdivmod).
    by rewrite !z2b_b2z.
Qed.

Lemma ValidRune_range (r : Z) :
  ValidRune r = true <-> 0 <= r <= 0x10FFFF /\ ~ (0xD800 <= r <= 0xDFFF).
Proof. unfold ValidRune, MaxRune, surrogateMin, surrogateMax. lia. Qed.

Lemma EncodeRune_valid (r : Z) : ValidRune r = true -> encoding (EncodeRune r) r.
Proof.
  intros Hv. apply ValidRune_range in Hv as [Hr Hs].
  unfold EncodeRune, encode3, MaxRune, surrogateMin, surrogateMax.
  destruct ((0 <=? r) && (r <=? 127)) eqn:E1.
  { remember (z2b r) as b0 eqn:Hb0.
    assert (H0 : b2z b0 = r) by (subst; apply b2z_z2b; lia).
    rewrite <- H0. constructor. lia. }
  destruct ((0 <=? r) && (r <=? 2047)) eqn:E2.
  { rewrite shiftr_6, land_maskx, lor_t2, lor_tx by zdivmod.
    remember (z2b (192 + r / 64)) as b0 eqn:Hb0.
    remember (z2b (128 + r mod 64)) as b1 eqn:Hb1.
    assert (H0 : b2z b0 = 192 + r / 64) by (subst; apply b2z_z2b; zdivmod).
    assert (H1 : b2z b1 = 128 + r mod 64) by (subst; apply b2z_z2b; zdivmod).
    replace r with ((b2z b0 - 192) * 64 + (b2z b1 - 128)) by (rewrite H0, H1; zdivmod).
    constructor; rewrite ?H0, ?H1; zdivmod. }
  destruct ((r <? 0) || (1114111 <? r) || (55296 <=? r) && (r <=? 57343)) eqn:E3; [lia|].
  destruct (r <=? 65535) eqn:E4.
  { rewrite shiftr_12, shiftr_6, !land_maskx, lor_t3, !lor_tx by zdivmod.
    remember (z2b (224 + r / 4096)) as b0 eqn:Hb0.
    remember (z2b (128 + r / 64 mod 64)) as b1 eqn:Hb1.
    remember (z2b (128 + r mod 64)) as b2 eqn:Hb2.
    assert (H0 : b2z b0 = 224 + r / 4096) by (subst; apply b2z_z2b; zdivmod).
    assert (H1 : b2z b1 = 128 + r / 64 mod 64) by (subst; apply b2z_z2b; zdivmod).
    assert (H2 : b2z b2 = 128 + r mod 64) by (subst; apply b2z_z2b; zdivmod).
    replace r with ((b2z b0 - 224) * 4096 + (b2z b1 - 128) * 64 + (b2z b2 - 128))
      by (rewrite H0, H1, H2; zdivmod).
    constructor; rewrite ?H0, ?H1, ?H2; try zdivmod.
    destruct (224 + r / 4096 =? 224) eqn:?, (224 + r / 4096 =? 237) eqn:?; zdivmod. }
  rewrite shiftr_18, shiftr_12, shiftr_6, !land_maskx, lor_t4, !lor_tx by zdivmod.
  remember (z2b (240 + r / 262144)) as b0 eqn:Hb0.
  remember (z2b (128 + r / 4096 mod 64)) as b1 eqn:Hb1.
  remember (z2b (128 + r / 64 mod 64)) as b2 eqn:Hb2.
  remember (z2b (128 + r mod 64)) as b3 eqn:Hb3.
  assert (H0 : b2z b0 = 240 + r / 262144) by (subst; apply b2z_z2b; zdivmod).
  assert (H1 : b2z b1 = 128 + r / 4096 mod 64) by (subst; apply b2z_z2b; zdivmod).
  assert (H2 : b2z b2 = 128 + r / 64 mod 64) by (subst; apply b2z_z2b; zdivmod).
  assert (H3 : b2z b3 = 128 + r mod 64) by (subst; apply b2z_z2b; zdivmod).
  replace r with ((b2z b0 - 240) * 262144 + (b2z b1 - 128) * 4096
                  + (b2z b2 - 128) * 64 + (b2z b3 - 128))
    by (rewrite H0, H1, H2, H3; zdivmod).
  constructor; rewrite ?H0, ?H1, ?H2, ?H3; try zdivmod.
  destruct (240 + r / 262144 =? 240) eqn:?, (240 + r / 262144 =? 244) eqn:?; zdivmod.
Qed.

Lemma EncodeRune_sanitize (r : Z) : EncodeRune r = EncodeRune (sanitize r).
Proof.
  unfold sanitize. destruct (ValidRune r) eqn:Hv; [done|].
  assert (Hr : ~ (0 <= r <= 0x10FFFF /\ ~ (0xD800 <= r <= 0xDFFF))).
  { intros H. apply ValidRune_range in H. congruence. }
  unfold EncodeRune, MaxRune, surrogateMin, surrogateMax.
  destruct ((0 <=? r) && (r <=? 127)) eqn:E1; [lia|].
  destruct ((0 <=? r) && (r <=? 2047)) eqn:E2; [lia|].
  destruct ((r <? 0) || (1114111 <? r) || (55296 <=? r) && (r <=? 57343)) eqn:E3; [|lia].
  reflexivity.
Qed.

Lemma sanitize_valid (r : Z) : ValidRune (sanitize r) = true.
Proof. unfold sanitize. by destruct (ValidRune r) eqn:E. Qed.

Lemma EncodeRune_encoding (r : Z) : encoding (EncodeRune r) (sanitize r).
Proof. rewrite EncodeRune_sanitize. apply EncodeRune_valid, sanitize_valid. Qed.

Lemma runes_cons_encoding (bs : gostring) (r : Z) (rest : gostring) :
  encoding bs r -> runes (bs ++ rest) = r :: runes rest.
Proof.
  intros He. pose proof (encoding_length _ _ He) as Hl.
  rewrite runes_step by (destruct bs; [simpl in Hl; lia|done]).
  rewrite (decode_encoding _ _ rest He). cbn [fst snd].
  by rewrite drop_app_length.
Qed.

Lemma ValidString_unfold (s : gostring) :
  s <> [] ->
  ValidString s =
    (if (fst (DecodeRuneInString s) =? RuneError)
        && (snd (DecodeRuneInString s) =? 1)%nat
     then false
     else ValidString (drop (snd (DecodeRuneInString s)) s)).
Proof.
  intros Hs. unfold ValidString. destruct s as [|b t]; [done|].
  cbn [length validLoop].
  pose proof (decode_width (b :: t) ltac:(done)) as Hw.
  destruct (DecodeRuneInString (b :: t)) as [r w]. cbn [fst snd] in *.
  destruct ((r =? RuneError) && (w =? 1)%nat); [done|].
  apply validLoop_fuel; rewrite ?length_drop; simpl; lia.
Qed.

Lemma encoding_not_error (bs : gostring) (r : Z) :
  encoding bs r -> (r =? RuneError) && (length bs =? 1)%nat = false.
Proof.
  intros [b0 H0| | |]; try (simpl; apply andb_false_r).
  unfold RuneError. simpl. lia.
Qed.

Lemma ValidString_cons_encoding (bs : gostring) (r : Z) (rest : gostring) :
  encoding bs r -> ValidString (bs ++ rest) = ValidString rest.
Proof.
  intros He. pose proof (encoding_length _ _ He) as Hl.
  rewrite ValidString_unfold by (destruct bs; [simpl in Hl; lia|done]).
  rewrite (decode_encoding _ _ rest He). cbn [fst snd].
  rewrite (encoding_not_error _ _ He). by rewrite drop_app_length.
Qed.

(** Decoding what [string(rs)] encodes gives the runes back, the invalid
    ones replaced by [RuneError]. *)
Lemma runes_string_of_runes (rs : list Z) :
  runes (string_of_runes rs) = map sanitize rs.
Proof.
  unfold string_of_runes. induction rs as [|r rs IH]; [done|].
  cbn [flat_map map].
  by rewrite (runes_cons_encoding _ _ _ (EncodeRune_encoding r)), IH.
Qed.

Lemma ValidString_string_of_runes (rs : list Z) :
  ValidString (string_of_runes rs) = true.
Proof.
  unfold string_of_runes. induction rs as [|r rs IH]; [done|].
  cbn [flat_map].
  by rewrite (ValidString_cons_encoding _ _ _ (EncodeRune_encoding r)).
Qed.

Lemma decode_rune_valid (s : gostring) :
  s <> [] -> ValidRune (fst (DecodeRuneInString s)) = true.
Proof.
  intros Hs.
  destruct (decide (DecodeRuneInString s = (RuneError, 1%nat))) as [->|Hd]; [done|].
  destruct (decode_inv s Hs Hd) as (bs & rest & r & -> & He).
  rewrite (decode_encoding _ _ rest He). by apply (encoding_ValidRune bs).
Qed.

(** The runes of a string are valid code points, whatever the string. *)
Lemma runes_valid (s : gostring) : Forall (fun r => ValidRune r = true) (runes s).
Proof.
  remember (length s) as n eqn:Hn.
  revert s Hn. induction n as [n IH] using lt_wf_ind. intros s Hn.
  destruct s as [|b t]; [constructor|].
  rewrite runes_step by done.
  pose proof (decode_width (b :: t) ltac:(done)) as Hw.
  constructor; [by apply decode_rune_valid|].
  apply (IH (length (drop (snd (DecodeRuneInString (b :: t))) (b :: t)))); [|done].
  rewrite length_drop. simpl in *. lia.
Qed.

Lemma map_sanitize_valid (rs : list Z) :
  Forall (fun r => ValidRune r = true) rs -> map sanitize rs = rs.
Proof.
  induction 1 as [|r rs Hr _ IH]; [done|].
  cbn [map]. unfold sanitize at 1. by rewrite Hr, IH.
Qed.

(** Encoding the runes of a valid string gives the string back. *)
Lemma string_of_runes_runes (s : gostring) :
  ValidString s = true -> string_of_runes (runes s) = s.
Proof.
  remember (length s) as n eqn:Hn.
  revert s Hn. induction n as [n IH] using lt_wf_ind. intros s Hn Hv.
  destruct s as [|b t]; [done|].
  destruct (ValidString_step (b :: t) ltac:(done) Hv) as [Hd Hrest].
  destruct (decode_inv (b :: t) ltac:(done) Hd) as (bs & rest & r & Hs & He).
  pose proof (encoding_length _ _ He) as Hl.
  rewrite Hs in *. rewrite (decode_encoding _ _ rest He) in Hrest. cbn [snd] in Hrest.
  rewrite drop_app_length in Hrest.
  rewrite (runes_cons_encoding _ _ _ He). unfold string_of_runes. cbn [flat_map].
  rewrite (encoding_EncodeRune _ _ He). f_equal.
  apply (IH (length rest)); [|done|done].
  rewrite Hn, length_app. lia.
Qed.

Lemma string_of_runes_app (a b : list Z) :
  string_of_runes (a ++ b) = string_of_runes a ++ string_of_runes b.
Proof. unfold string_of_runes. apply flat_map_app. Qed.

(** ** The snippet as a piece of text *)

Lemma slice_Done {A} (l : list A) (lo hi : Z) (w : list A) :
  slice l lo hi = Done w ->
  w = substring l lo hi /\ 0 <= lo <= hi /\ hi <= len l /\
  l = take (Z.to_nat lo) l ++ w ++ drop (Z.to_nat hi) l.
Proof.
  unfold slice, substring. destruct (_ && _) eqn:E; [|done]. intros [= <-].
  split; [done|]. split; [lia|]. split; [lia|].
  rewrite <- (take_drop (Z.to_nat lo) l) at 1. f_equal.
  rewrite <- (take_drop (Z.to_nat (hi - lo)) (drop (Z.to_nat lo) l)) at 1. f_equal.
  rewrite drop_drop. f_equal. lia.
Qed.

Lemma extractSnippet_Done (lineRunes : list Z) (query : gostring) (N : Z) (s : gostring) :
  extractSnippet lineRunes query N = Done s ->
  s = [] \/ exists lo hi w, slice lineRunes lo hi = Done w /\ s = string_of_runes w.
Proof.
  unfold extractSnippet. cbv zeta.
  destruct (searchFrom 0 lineRunes (runes query) =? -1); [intros [= <-]; by left|].
  destruct (slice _ _ _) as [w|] eqn:Hw; [|done]. simpl. intros [= <-].
  right. by eexists _, _, w.
Qed.

Lemma searchFrom_first_inv (l q : list Z) (i : nat) :
  searchFrom 0 l q = Z.of_nat i -> firstOccurrence l q i.
Proof.
  intros H. destruct (searchFrom_spec l q 0) as [[Hs _]|(i' & Hfirst & Hs)].
  - lia.
  - assert (i = i') as -> by lia. done.
Qed.

(** X1.  Inside the range of [int], [extractSnippet] returns the text of the
    window of runes from [max(0, i - N)] to [min(lineLen, i + qLen + N)] around
    the first occurrence [i] of the query; the window has at most
    [qLen + 2 * N] runes, the returned string decodes to as many characters,
    and for [N = 0] the window is the query itself. *)
Theorem extractSnippet_in_range (lineRunes : list Z) (query : gostring) (N : Z) (i : nat) :
  firstOccurrence lineRunes (runes query) i ->
  0 <= N ->
  Z.of_nat i + len (runes query) + N <= MaxInt ->
  exists window,
    extractSnippet lineRunes query N = Done (string_of_runes window) /\
    window = substring lineRunes (Z.max 0 (Z.of_nat i - N))
               (Z.min (len lineRunes) (Z.of_nat i + len (runes query) + N)) /\
    len window <= len (runes query) + 2 * N /\
    len (runes (string_of_runes window)) = len window /\
    (N = 0 -> window = runes query).
Proof.
  intros Hfirst HN Hmax. eexists. split; [by apply extractSnippet_window|].
  split; [done|]. split; [|split].
  - apply substring_length; [lia|apply len_nonneg|done].
  - rewrite runes_string_of_runes. unfold len. by rewrite length_map.
  - intros ->. apply substring_match, Hfirst.
Qed.

Lemma extractSnippet_in_range_witness :
  exists window,
    extractSnippet (runes target_line) (lit "TARGET") 5 = Done (string_of_runes window) /\
    window = substring (runes target_line) (Z.max 0 (Z.of_nat 20 - 5))
               (Z.min (len (runes target_line)) (Z.of_nat 20 + len (runes (lit "TARGET")) + 5)) /\
    len window <= len (runes (lit "TARGET")) + 2 * 5 /\
    len (runes (string_of_runes window)) = len window /\
    (5 = 0 -> window = runes (lit "TARGET")).
Proof.
  apply (extractSnippet_in_range (runes target_line) (lit "TARGET") 5 20).
  - apply searchFrom_first_inv. vm_compute. reflexivity.
  - lia.
  - vm_compute. discriminate.
Defined.

Lemma Forall_valid_part (a w c : list Z) :
  Forall (fun r => ValidRune r = true) (a ++ w ++ c) ->
  Forall (fun r => ValidRune r = true) w.
Proof. intros H. apply Forall_app in H as [_ H]. by apply Forall_app in H as [H _]. Qed.

Lemma extractSnippet_valid (lineRunes : list Z) (query : gostring) (N : Z) (s : gostring) :
  extractSnippet lineRunes query N = Done s -> ValidString s = true.
Proof.
  intros Hs. apply extractSnippet_Done in Hs as [->|(lo & hi & w & Hw & ->)]; [done|].
  apply ValidString_string_of_runes.
Qed.

(** X2.  Whenever [extractSnippet] returns, on the runes of any line (valid
    UTF-8 or not), the snippet is valid UTF-8 and decodes to a contiguous run
    of the characters of the line: the cut never falls inside a character. *)
Theorem snippet_is_text (lineText query : gostring) (N : Z) (s : gostring) :
  extractSnippet (runes lineText) query N = Done s ->
  ValidString s = true /\
  exists before after, runes lineText = before ++ runes s ++ after.
Proof.
  intros Hs. apply extractSnippet_Done in Hs as [->|(lo & hi & w & Hw & ->)].
  - split; [done|]. by exists [], (runes lineText).
  - split; [apply ValidString_string_of_runes|].
    apply slice_Done in Hw as (_ & _ & _ & Hsplit).
    rewrite runes_string_of_runes, map_sanitize_valid.
    + by eexists _, _.
    + apply (Forall_valid_part (take (Z.to_nat lo) (runes lineText)) w
               (drop (Z.to_nat hi) (runes lineText))).
      rewrite <- Hsplit. apply runes_valid.
Qed.

Lemma snippet_is_text_witness :
  ValidString (lit "67890TARGET12345") = true /\
  exists before after,
    runes target_line = before ++ runes (lit "67890TARGET12345") ++ after.
Proof.
  apply (snippet_is_text target_line (lit "TARGET") 5 (lit "67890TARGET12345")).
  vm_compute. reflexivity.
Defined.

Lemma substring_split {A} (l : list A) (lo hi : Z) :
  0 <= lo <= hi -> hi <= len l ->
  l = take (Z.to_nat lo) l ++ substring l lo hi ++ drop (Z.to_nat hi) l.
Proof.
  intros H1 H2. unfold substring.
  rewrite <- (take_drop (Z.to_nat lo) l) at 1. f_equal.
  rewrite <- (take_drop (Z.to_nat (hi - lo)) (drop (Z.to_nat lo) l)) at 1. f_equal.
  rewrite drop_drop. f_equal. lia.
Qed.

Lemma substring_covers {A} (pre m post : list A) (lo hi : Z) :
  0 <= lo <= len pre -> len pre + len m <= hi ->
  exists w1 w2, substring (pre ++ m ++ post) lo hi = w1 ++ m ++ w2.
Proof.
  intros Hlo Hhi. unfold substring, len in *.
  exists (drop (Z.to_nat lo) pre),
         (take (Z.to_nat (hi - lo) - (length pre - Z.to_nat lo) - length m) post).
  rewrite drop_app_le by lia.
  rewrite take_app_ge by (rewrite length_drop; lia). f_equal.
  rewrite length_drop. rewrite take_app_ge by lia. done.
Qed.

(** X3.  For a line and a query that are valid UTF-8, with the query in the
    line and a width inside the range of [int]: the snippet contains the query
    and is itself a contiguous piece of the bytes of the line. *)
Theorem snippet_contains_query (lineText query : gostring) (N : Z) :
  ValidString lineText = true ->
  ValidString query = true ->
  Contains lineText query = true ->
  0 <= N ->
  len (runes lineText) + N <= MaxInt ->
  exists s i j,
    extractSnippet (runes lineText) query N = Done s /\
    occursAt s query i /\
    occursAt lineText s j.
Proof.
  intros HvL Hvq Hin HN Hmax.
  apply Contains_spec in Hin as [j0 Hj0].
  destruct (runes_occurs _ _ _ Hvq Hj0) as [i0 Hi0].
  destruct (searchFrom_occurs _ _ _ Hi0) as (i & Hfirst & _).
  pose proof (occursAt_bound _ _ _ (proj1 Hfirst)) as Hb.
  assert (Hmax' : Z.of_nat i + len (runes query) + N <= MaxInt) by (unfold len in *; lia).
  rewrite (extractSnippet_window _ _ _ _ Hfirst HN Hmax').
  set (lo := Z.max 0 (Z.of_nat i - N)).
  set (hi := Z.min (len (runes lineText)) (Z.of_nat i + len (runes query) + N)).
  eexists. 
  destruct (proj1 Hfirst) as (pre & post & Hl & Hpre).
  destruct (substring_covers pre (runes query) post lo hi) as (w1 & w2 & Hw).
  { unfold lo, len. lia. }
  { unfold hi, len in *. rewrite Hl, !length_app in *. lia. }
  exists (length (string_of_runes w1)),
         (length (string_of_runes (take (Z.to_nat lo) (runes lineText)))).
  split; [done|]. split.
  - rewrite Hl, Hw, !string_of_runes_app, (string_of_runes_runes query Hvq).
    by eexists _, _.
  - rewrite <- (string_of_runes_runes lineText HvL) at 1.
    rewrite (substring_split (runes lineText) lo hi) at 1 by (unfold lo, hi, len in *; lia).
    rewrite !string_of_runes_app. by eexists _, _.
Qed.

Lemma snippet_contains_query_witness :
  exists s i j,
    extractSnippet (runes target_line) (lit "TARGET") 5 = Done s /\
    occursAt s (lit "TARGET") i /\
    occursAt target_line s j.
Proof.
  apply (snippet_contains_query target_line (lit "TARGET") 5).
  - vm_compute. reflexivity.
  - vm_compute. reflexivity.
  - vm_compute. reflexivity.
  - lia.
  - vm_compute. discriminate.
Defined.

(** ** Snippets stay on one line *)

Lemma elem_of_dropCR (b : byte) (data : gostring) : b ∈ dropCR data -> b ∈ data.
Proof.
  induction data as [|c [|d data] IH]; cbn [dropCR]; [done| |].
  - destruct (Byte.eqb c carriage); [by intros ?%not_elem_of_nil|done].
  - intros [->|H]%elem_of_cons; [by left|]. right. by apply IH.
Qed.

Lemma scanTokens_no_newline (data cur : gostring) (fail : option error) :
  newline ∉ cur ->
  Forall (fun token => newline ∉ token) (scanTokens cur data fail).1.
Proof.
  revert cur. induction data as [|b data IH]; intros cur Hcur; cbn [scanTokens].
  - destruct cur as [|c cur]; cbn [fst]; [constructor|].
    constructor; [|constructor]. intros H. by apply elem_of_dropCR in H.
  - destruct (Byte.eqb b newline) eqn:Hb.
    + specialize (IH [] ltac:(apply not_elem_of_nil)).
      destruct (scanTokens [] data fail) as [tokens err]. cbn [fst] in *.
      constructor; [|done]. intros H. by apply elem_of_dropCR in H.
    + destruct (MaxScanTokenSize <=? len cur + 1); cbn [fst]; [constructor|].
      apply IH. intros [H|H]%elem_of_app; [done|].
      apply list_elem_of_singleton in H as <-.
      by rewrite (Byte.byte_dec_lb eq_refl) in Hb.
Qed.

Lemma scanLines_no_newline (r : Reader) :
  Forall (fun line => newline ∉ line) (scanLines r).1.
Proof. apply scanTokens_no_newline, not_elem_of_nil. Qed.

Lemma b2z_newline : b2z newline = 10.
Proof. reflexivity. Qed.

(** Only the rune 10 is encoded with the newline byte. *)
Lemma encoding_newline (bs : gostring) (r : Z) :
  encoding bs r -> newline ∈ bs <-> r = 10.
Proof.
  intros [b0 H0|b0 b1 H0 H1|b0 b1 b2 H0 H1 H2|b0 b1 b2 b3 H0 H1 H2 H3].
  - rewrite list_elem_of_singleton. split.
    + by intros <-.
    + intros H. apply b2z_inj. by rewrite b2z_newline.
  - split; [|lia]. intros H. exfalso.
    repeat (apply elem_of_cons in H as [<-|H]; [rewrite b2z_newline in *; lia|]).
    by apply not_elem_of_nil in H.
  - assert (Hb1 : 128 <= b2z b1 <= 191)
      by (destruct (b2z b0 =? 224), (b2z b0 =? 237); lia).
    split;
      [|intros Hr; exfalso;
        destruct (b2z b0 =? 224) eqn:?, (b2z b0 =? 237) eqn:?; lia].
    clear H1. intros H. exfalso.
    repeat (apply elem_of_cons in H as [<-|H]; [rewrite b2z_newline in *; lia|]).
    by apply not_elem_of_nil in H.
  - assert (Hb1 : 128 <= b2z b1 <= 191)
      by (destruct (b2z b0 =? 240), (b2z b0 =? 244); lia).
    split;
      [|intros Hr; exfalso;
        destruct (b2z b0 =? 240) eqn:?, (b2z b0 =? 244) eqn:?; lia].
    clear H1. intros H. exfalso.
    repeat (apply elem_of_cons in H as [<-|H]; [rewrite b2z_newline in *; lia|]).
    by apply not_elem_of_nil in H.
Qed.

Lemma runes_newline (s : gostring) : 10 ∈ runes s -> newline ∈ s.
Proof.
  remember (length s) as n eqn:Hn.
  revert s Hn. induction n as [n IH] using lt_wf_ind. intros s Hn.
  destruct s as [|b t]; [by intros ?%not_elem_of_nil|].
  rewrite runes_step by done.
  pose proof (decode_width (b :: t) ltac:(done)) as Hw.
  intros [H10|Hrest]%elem_of_cons.
  - assert (Hd : DecodeRuneInString (b :: t) <> (RuneError, 1%nat)).
    { intros Heq. rewrite Heq in H10. done. }
    destruct (decode_inv (b :: t) ltac:(done) Hd) as (bs & rest & r & Hs & He).
    rewrite Hs in *. rewrite (decode_encoding _ _ rest He) in H10. cbn [fst] in H10.
    apply elem_of_app. left. apply (encoding_newline _ _ He). done.
  - apply (IH (length (drop (snd (DecodeRuneInString (b :: t))) (b :: t)))) in Hrest;
      [|rewrite length_drop; simpl in *; lia|done].
    apply list_elem_of_lookup in Hrest as [i Hi].
    rewrite lookup_drop in Hi. apply list_elem_of_lookup. eauto.
Qed.

Lemma sanitize_10 (r : Z) : sanitize r = 10 -> r = 10.
Proof. unfold sanitize. destruct (ValidRune r); [done|]. discriminate. Qed.

Lemma string_of_runes_newline (rs : list Z) :
  newline ∈ string_of_runes rs -> 10 ∈ rs.
Proof.
  unfold string_of_runes. induction rs as [|r rs IH]; cbn [flat_map];
    [by intros ?%not_elem_of_nil|].
  intros [H|H]%elem_of_app.
  - apply (encoding_newline _ _ (EncodeRune_encoding r)) in H.
    apply sanitize_10 in H as ->. by left.
  - right. by apply IH.
Qed.

Lemma snippet_no_newline (lineText query : gostring) (N : Z) (s : gostring) :
  newline ∉ lineText ->
  extractSnippet (runes lineText) query N = Done s ->
  newline ∉ s.
Proof.
  intros HL Hs Hin. apply HL. apply runes_newline.
  apply extractSnippet_Done in Hs as [->|(lo & hi & w & Hw & ->)].
  - by apply not_elem_of_nil in Hin.
  - apply string_of_runes_newline in Hin.
    apply slice_Done in Hw as (_ & _ & _ & ->).
    apply elem_of_app. right. apply elem_of_app. by left.
Qed.

Lemma snippetOf_wellformed (lineText q : gostring) (N : Z) :
  newline ∉ lineText ->
  ValidString (snippetOf lineText q N) = true /\ newline ∉ snippetOf lineText q N.
Proof.
  intros HL. unfold snippetOf.
  destruct (extractSnippet (runes lineText) q N) as [s|] eqn:Hs.
  - split; [by apply (extractSnippet_valid _ _ _ _ Hs)|by apply (snippet_no_newline lineText q N)].
  - split; [done|apply not_elem_of_nil].
Qed.

(** ** What [SearchStream] returns *)

Lemma SearchStream_Success (r : Reader) (queries : list gostring) (N : Z)
    (rs : gmap gostring SearchResult) :
  SearchStream r queries N = Done (Success rs) ->
  resultsAfter N queries (scanLines r).1 = Done rs /\ (scanLines r).2 = None.
Proof.
  rewrite SearchStream_unfold.
  destruct (resultsAfter N queries (scanLines r).1) as [rs0|]; [|done].
  simpl. destruct ((scanLines r).2); [done|]. by intros [= <-].
Qed.

Lemma elem_of_matchingLines (q lineText : gostring) (lines : list gostring) :
  lineText ∈ matchingLines q lines -> lineText ∈ lines /\ Contains lineText q = true.
Proof.
  unfold matchingLines. rewrite !list_elem_of_In, List.filter_In. tauto.
Qed.

Lemma Forall_snippetsFor (P : gostring -> Prop) (q : gostring) (N : Z) (k : nat)
    (lines : list gostring) :
  (forall lineText, lineText ∈ lines -> P (snippetOf lineText q N)) ->
  Forall P (snippetsFor q N k lines).
Proof.
  intros H. unfold snippetsFor. apply Forall_forall. intros s Hs.
  apply list_elem_of_In, in_flat_map in Hs as (l & Hl & Hs).
  apply list_elem_of_In, elem_of_replicate in Hs as [-> _].
  apply H. apply list_elem_of_In in Hl. by apply elem_of_matchingLines in Hl as [Hl _].
Qed.

(** X4.  Every snippet in a result of [SearchStream] is valid UTF-8 and
    holds no newline byte, whatever the bytes of the stream and the query:
    [WriteResults] prints each snippet on a line of its own. *)
Theorem recorded_snippets_are_lines (r : Reader) (queries : list gostring) (N : Z)
    (rs : gmap gostring SearchResult) (q : gostring) (res : SearchResult) :
  SearchStream r queries N = Done (Success rs) ->
  rs !! q = Some res ->
  Forall (fun s => ValidString s = true /\ newline ∉ s) (Snippets res).
Proof.
  intros Hrs Hres. apply SearchStream_Success in Hrs as [Hrs _].
  assert (Hq : q ∈ queries) by (apply (resultsAfter_keys _ _ _ _ q Hrs); eauto).
  rewrite (resultsAfter_lookup _ _ _ _ q Hrs Hq) in Hres. injection Hres as <-.
  rewrite initial_Snippets. apply Forall_take, Forall_snippetsFor.
  intros lineText Hl. apply snippetOf_wellformed.
  pose proof (scanLines_no_newline r) as Hn. rewrite Forall_forall in Hn. by apply Hn.
Qed.

Lemma recorded_snippets_are_lines_witness :
  Forall (fun s => ValidString s = true /\ newline ∉ s)
    (Snippets (mkSearchResult (lit "MATCH") 1 [lit "prefix MATCH suffix"])).
Proof.
  destruct (recordOf_Some (SearchStream (mkReader lazy_content None) [lit "MATCH"] 10)
              (lit "MATCH") (mkSearchResult (lit "MATCH") 1 [lit "prefix MATCH suffix"]))
    as (rs & Hrs & Hres).
  { vm_compute. reflexivity. }
  exact (recorded_snippets_are_lines _ _ _ rs (lit "MATCH") _ Hrs Hres).
Defined.

Lemma afterLines_no_match (lines : list gostring) (q : gostring) (N : Z) (k : nat)
    (res : SearchResult) :
  matchingLines q lines = [] -> afterLines lines q N k res = res.
Proof.
  unfold afterLines, matchingLines. revert res.
  induction lines as [|l lines IH]; intros res; simpl; [done|].
  unfold afterLine at 2. destruct (Contains l q); [done|]. apply IH.
Qed.

(** X5.  The map [SearchStream] returns has exactly the queries as keys;
    the record at a key names that key; and a query that no line contains has
    the count 0 and no snippet. *)
Theorem results_have_the_queries_as_keys (r : Reader) (queries : list gostring)
    (N : Z) (rs : gmap gostring SearchResult) (q : gostring) :
  SearchStream r queries N = Done (Success rs) ->
  (is_Some (rs !! q) <-> q ∈ queries) /\
  (forall res, rs !! q = Some res -> Query res = q) /\
  (q ∈ queries -> matchingLines q (scanLines r).1 = [] ->
   rs !! q = Some (mkSearchResult q 0 [])).
Proof.
  intros Hrs. apply SearchStream_Success in Hrs as [Hrs _].
  split; [by apply (resultsAfter_keys _ _ _ _ q Hrs)|]. split.
  - intros res Hres.
    assert (Hq : q ∈ queries) by (apply (resultsAfter_keys _ _ _ _ q Hrs); eauto).
    rewrite (resultsAfter_lookup _ _ _ _ q Hrs Hq) in Hres. injection Hres as <-.
    by rewrite afterLines_Query.
  - intros Hq Hnone. rewrite (resultsAfter_lookup _ _ _ _ q Hrs Hq).
    by rewrite afterLines_no_match.
Qed.

Lemma results_have_the_queries_as_keys_witness :
  exists rs : gmap gostring SearchResult,
    (is_Some (rs !! lit "absent") <-> lit "absent" ∈ [lit "MATCH"; lit "absent"]) /\
    (forall res, rs !! lit "absent" = Some res -> Query res = lit "absent") /\
    (lit "absent" ∈ [lit "MATCH"; lit "absent"] ->
     matchingLines (lit "absent") (scanLines (mkReader lazy_content None)).1 = [] ->
     rs !! lit "absent" = Some (mkSearchResult (lit "absent") 0 [])).
Proof.
  destruct (recordOf_Some
              (SearchStream (mkReader lazy_content None) [lit "MATCH"; lit "absent"] 10)
              (lit "absent") (mkSearchResult (lit "absent") 0 []))
    as (rs & Hrs & _).
  { vm_compute. reflexivity. }
  exists rs.
  exact (results_have_the_queries_as_keys _ _ _ rs (lit "absent") Hrs).
Defined.

Lemma SearchResult_eta (res : SearchResult) :
  res = mkSearchResult (Query res) (Count res) (Snippets res).
Proof. by destruct res. Qed.

(** X6.  For a query that stands once in the list, a width for which the
    index arithmetic stays in range and a stream read without error (fewer
    lines than the largest [int]), [SearchStream] returns the record with the
    number of lines containing the query as count and, as snippets, the
    snippets of the first 10 such lines in the order of the stream. *)
Theorem SearchStream_record (r : Reader) (queries : list gostring) (N : Z)
    (q : gostring) :
  occurrences q queries = 1%nat ->
  safeWidth N ->
  (scanLines r).2 = None ->
  len (scanLines r).1 <= MaxInt ->
  exists rs,
    SearchStream r queries N = Done (Success rs) /\
    rs !! q = Some (mkSearchResult q
                      (len (matchingLines q (scanLines r).1))
                      (take 10 (map (fun lineText => snippetOf lineText q N)
                                    (matchingLines q (scanLines r).1)))).
Proof.
  intros Hone HN Herr Hmax.
  assert (Hq : q ∈ queries) by (apply occurrences_pos; lia).
  destruct (resultsAfter_total N queries (scanLines r).1 HN (scanLines_short r))
    as [rs Hrs].
  exists rs. split.
  - by rewrite SearchStream_unfold, Hrs, Herr.
  - rewrite (resultsAfter_lookup _ _ _ _ q Hrs Hq), Hone.
    rewrite (SearchResult_eta (afterLines _ _ _ _ _)).
    rewrite afterLines_Query, initial_Snippets, snippetsFor_once.
    rewrite initial_Count by lia. cbn [Query]. do 2 f_equal. lia.
Qed.

Lemma SearchStream_record_witness :
  exists rs,
    SearchStream (mkReader lazy_content None) [lit "MATCH"] 10 = Done (Success rs) /\
    rs !! lit "MATCH" =
      Some (mkSearchResult (lit "MATCH")
              (len (matchingLines (lit "MATCH") (scanLines (mkReader lazy_content None)).1))
              (take 10 (map (fun lineText => snippetOf lineText (lit "MATCH") 10)
                            (matchingLines (lit "MATCH")
                               (scanLines (mkReader lazy_content None)).1)))).
Proof.
  apply (SearchStream_record (mkReader lazy_content None) [lit "MATCH"] 10 (lit "MATCH")).
  - vm_compute. reflexivity.
  - vm_compute. split; discriminate.
  - vm_compute. reflexivity.
  - vm_compute. discriminate.
Defined.

(** ** Streams that cannot be read to the end *)

Lemma scanTokens_failure (data cur : gostring) (e : error) :
  (scanTokens cur data (Some e)).2 = Some e \/
  (scanTokens cur data (Some e)).2 = Some ErrTooLong.
Proof.
  revert cur. induction data as [|b data IH]; intros cur; cbn [scanTokens].
  - by left.
  - destruct (Byte.eqb b newline).
    + specialize (IH []). by destruct (scanTokens [] data (Some e)).
    + destruct (MaxScanTokenSize <=? len cur + 1); [by right|apply IH].
Qed.

Lemma scanTokens_too_long (chunk rest cur : gostring) (fail : option error) :
  newline ∉ chunk -> len cur < MaxScanTokenSize ->
  MaxScanTokenSize <= len cur + len chunk ->
  (scanTokens cur (chunk ++ rest) fail).2 = Some ErrTooLong.
Proof.
  revert cur. induction chunk as [|b chunk IH]; intros cur Hn Hcur Hlen.
  - unfold len in Hlen at 2. simpl in Hlen. lia.
  - rewrite <- app_comm_cons. cbn [scanTokens].
    destruct (Byte.eqb b newline) eqn:Hb.
    { apply Byte.byte_dec_bl in Hb as ->. exfalso. apply Hn. by left. }
    destruct (MaxScanTokenSize <=? len cur + 1) eqn:E; [done|].
    apply IH.
    + intros H. apply Hn. by right.
    + rewrite len_app. unfold len at 2. simpl. lia.
    + rewrite len_app, len_cons in *. unfold len at 2. simpl. lia.
Qed.

Lemma scanTokens_too_long_later (pre chunk rest cur : gostring) (fail : option error) :
  newline ∉ chunk -> len cur < MaxScanTokenSize ->
  MaxScanTokenSize < len chunk ->
  (scanTokens cur (pre ++ chunk ++ rest) fail).2 = Some ErrTooLong.
Proof.
  intros Hn. revert cur. induction pre as [|b pre IH]; intros cur Hcur Hlen.
  - simpl app. apply (scanTokens_too_long chunk rest cur); [done|done|].
    pose proof (len_nonneg cur). lia.
  - rewrite <- app_comm_cons. cbn [scanTokens].
    destruct (Byte.eqb b newline).
    + specialize (IH [] ltac:(done) Hlen).
      by destruct (scanTokens [] (pre ++ chunk ++ rest) fail).
    + destruct (MaxScanTokenSize <=? len cur + 1) eqn:E; [done|].
      apply IH; [|done]. rewrite len_app. unfold len at 2. simpl. lia.
Qed.

(** X7.  When the scanner ends with an error [e], [SearchStream] returns no
    result map: it fails with the error "error reading stream" wrapping [e]
    (for every width for which the index arithmetic stays in range; for the
    others it fails so or panics).  The scanner ends with an error when the
    reader fails, and when the stream has more than 65536 bytes without a
    newline anywhere, even after lines that matched. *)
Theorem SearchStream_read_error (r : Reader) (queries : list gostring) (N : Z) :
  (forall e, (scanLines r).2 = Some e ->
     (forall rs, SearchStream r queries N <> Done (Success rs)) /\
     (safeWidth N -> SearchStream r queries N = Done (Failure (ErrReadStream e)))) /\
  (forall e, failure r = Some e ->
     (scanLines r).2 = Some e \/ (scanLines r).2 = Some ErrTooLong) /\
  (forall pre chunk rest,
     content r = pre ++ chunk ++ rest -> newline ∉ chunk ->
     MaxScanTokenSize < len chunk ->
     (scanLines r).2 = Some ErrTooLong).
Proof.
  split; [|split].
  - intros e He. split.
    + intros rs Hrs. apply SearchStream_Success in Hrs as [_ Hnone]. congruence.
    + intros HN.
      destruct (resultsAfter_total N queries (scanLines r).1 HN (scanLines_short r))
        as [rs Hrs].
      by rewrite SearchStream_unfold, Hrs, He.
  - intros e He. unfold scanLines. rewrite He. apply scanTokens_failure.
  - intros pre chunk rest Hc Hn Hlen. unfold scanLines. rewrite Hc.
    by apply scanTokens_too_long_later.
Qed.

Lemma SearchStream_read_error_witness :
  (forall rs, SearchStream (mkReader lazy_content (Some (ErrExternal (lit "disk"))))
                [lit "MATCH"] 10 <> Done (Success rs)) /\
  (safeWidth 10 ->
   SearchStream (mkReader lazy_content (Some (ErrExternal (lit "disk"))))
     [lit "MATCH"] 10 = Done (Failure (ErrReadStream (ErrExternal (lit "disk"))))).
Proof.
  apply (proj1 (SearchStream_read_error
                  (mkReader lazy_content (Some (ErrExternal (lit "disk"))))
                  [lit "MATCH"] 10)).
  vm_compute. reflexivity.
Defined.

(** ** Lines without a match *)

(** X8.  A line that contains none of the queries leaves the result map as
    it is, whatever the map and the width: its runes are not computed (the
    slice stays nil) and nothing can panic. *)
Theorem line_without_match (N : Z) (queries : list gostring)
    (rs : gmap gostring SearchResult) (lineText : gostring) :
  Forall (fun q => Contains lineText q = false) queries ->
  foldO (scanQuery lineText N) (rs, None) queries = Done (rs, None) /\
  scanLine N queries rs lineText = Done rs.
Proof.
  intros Hall.
  assert (H : foldO (scanQuery lineText N) (rs, None) queries = Done (rs, None)).
  { induction Hall as [|q queries Hq _ IH]; cbn [foldO]; [done|].
    unfold scanQuery at 1. rewrite Hq. simpl. exact IH. }
  split; [done|]. unfold scanLine. by rewrite H.
Qed.

Lemma line_without_match_witness :
  foldO (scanQuery (lit "no match here") MaxInt) (∅, None) [lit "MATCH"; lit "other"]
    = Done (∅, None) /\
  scanLine MaxInt [lit "MATCH"; lit "other"] ∅ (lit "no match here") = Done ∅.
Proof.
  apply (line_without_match MaxInt [lit "MATCH"; lit "other"] ∅ (lit "no match here")).
  repeat constructor.
Defined.

(** ** [Run] where it succeeds *)

(** X9.  When the flags parse with a non-negative width, the configuration is
    accepted, the output file (if [-o] is given) is created, the input file
    opens and the search succeeds, [Run] returns the exit code 0, logs
    nothing, writes the result blocks to the standard output and the same
    bytes to the output file; every query of the configuration has its block. *)
Theorem Run_success (ParseInt : gostring -> option Z) (ctx : AppContext)
    (fl : Flags) (rest : list gostring) (config : Config) (f : Reader)
    (rs : gmap gostring SearchResult) :
  Parse ParseInt defaultFlags (drop 1 (Args ctx)) = Success (fl, rest) ->
  0 <= contextSize fl ->
  ParseArgs rest (ExecPath ctx) = Success config ->
  (outputFile fl = [] \/ FileCreator ctx (outputFile fl) = None) ->
  FileReader ctx (InputFilePath config) = Success f ->
  SearchStream f (Queries config) (contextSize fl) = Done (Success rs) ->
  Run ParseInt ctx =
    Done (mkRun 0 (WriteResults rs (Queries config)) [] []
            (match outputFile fl with
             | [] => None
             | _ :: _ => Some (outputFile fl, WriteResults rs (Queries config))
             end)) /\
  WriteResults rs (Queries config) = flat_map (blockOf rs) (Queries config) /\
  Forall (fun q => exists res, rs !! q = Some res /\ blockOf rs q = formatBlock res)
    (Queries config).
Proof.
  intros Hp Hn Ha Ho Hr Hs. split; [|split].
  - unfold Run. rewrite Hp.
    destruct (contextSize fl <? 0) eqn:E; [lia|]. rewrite Ha.
    destruct (outputFile fl) as [|c path] eqn:Eo.
    + unfold search. cbn [InputFilePath Queries ContextSize]. by rewrite Hr, Hs.
    + destruct Ho as [?|Ho]; [done|]. rewrite Ho.
      unfold search. cbn [InputFilePath Queries ContextSize]. by rewrite Hr, Hs.
  - apply WriteResults_blocks.
  - apply SearchStream_Success in Hs as [Hs _].
    apply Forall_forall. intros q Hq.
    apply (resultsAfter_keys _ _ _ _ q Hs) in Hq as [res Hres].
    exists res. split; [done|]. unfold blockOf. by rewrite Hres.
Qed.

Lemma Run_success_witness :
  exists rs : gmap gostring SearchResult,
    Run parseDecimal tee_run =
      Done (mkRun 0 (WriteResults rs [lit "MATCH"]) [] []
              (Some (lit "out.txt", WriteResults rs [lit "MATCH"]))).
Proof.
  destruct (recordOf_Some (SearchStream (mkReader lazy_content None) [lit "MATCH"] 20)
              (lit "MATCH") (mkSearchResult (lit "MATCH") 1 [lit "prefix MATCH suffix"]))
    as (rs & Hrs & _).
  { vm_compute. reflexivity. }
  exists rs.
  apply (Run_success parseDecimal tee_run (mkFlags (lit "out.txt") 20) [lit "dummy.log"]
           (mkConfig (lit "dummy.log") [lit "MATCH"] 20)
           (mkReader lazy_content None) rs).
  - vm_compute. reflexivity.
  - vm_compute. discriminate.
  - vm_compute. reflexivity.
  - right. reflexivity.
  - reflexivity.
  - exact Hrs.
Defined.

(** X10.  [Run] returns 0 or 1, and 1 exactly when one of the errors of a
    run occurs; with the exit code 1 nothing is written to the standard
    output. *)
Theorem Run_exit_code (ParseInt : gostring -> option Z) (ctx : AppContext)
    (out : RunResult) :
  Run ParseInt ctx = Done out ->
  (exitCode out = 0 /\ ~ runError ParseInt ctx) \/
  (exitCode out = 1 /\ runError ParseInt ctx /\ stdout out = []).
Proof.
  unfold Run, search, failed.
  destruct (Parse ParseInt defaultFlags (drop 1 (Args ctx))) as [[fl rest]|e] eqn:Hp.
  2:{ intros [= <-]. right. repeat split; [by eapply FlagParseError]. }
  destruct (contextSize fl <? 0) eqn:Hn.
  { intros [= <-]. right. repeat split. eapply NegativeContextSize; [done|lia]. }
  destruct (ParseArgs rest (ExecPath ctx)) as [config|e] eqn:Ha.
  2:{ intros [= <-]. right. repeat split. by eapply ConfigurationError. }
  cbn [InputFilePath Queries ContextSize].
  assert (Hsearch : forall file out,
    match FileReader ctx (InputFilePath config) with
    | Success f =>
        do found <- SearchStream f (Queries config) (contextSize fl);
        match found with
        | Success results =>
            Done (mkRun 0 (WriteResults results (Queries config)) [] []
                    (option_map (fun path => (path, WriteResults results (Queries config))) file))
        | Failure err =>
            Done (mkRun 1 [] [mkLog (lit "Search failed") [(lit "error", LogError err)]] []
                    (option_map (fun path => (path, [])) file))
        end
    | Failure err =>
        Done (mkRun 1 []
                [mkLog (lit "Failed to open input file")
                   [(lit "path", LogString (InputFilePath config));
                    (lit "error", LogError err)]] []
                (option_map (fun path => (path, [])) file))
    end = Done out ->
    (file = None -> outputFile fl = []) ->
    (forall path, file = Some path ->
       path = outputFile fl /\ path <> [] /\ FileCreator ctx path = None) ->
    (exitCode out = 0 /\ ~ runError ParseInt ctx) \/
    (exitCode out = 1 /\ runError ParseInt ctx /\ stdout out = [])).
  { intros file out' Hrun Hnone Hsome.
    destruct (FileReader ctx (InputFilePath config)) as [f|e] eqn:Hr.
    2:{ injection Hrun as <-. right. repeat split. by eapply FileOpenError. }
    destruct (SearchStream f (Queries config) (contextSize fl)) as [[rs|e]|] eqn:Hs;
      [| |done].
    2:{ injection Hrun as <-. right. repeat split. by eapply StreamReadError. }
    injection Hrun as <-. left. split; [done|].
    intros [e Hp'|fl' rest' Hp' Hn'|fl' rest' e Hp' Ha'|fl' rest' e Hp' Ho' Hc'
           |fl' rest' config' e Hp' Ha' Hr'|fl' rest' config' f' e Hp' Ha' Hr' Hs'];
      rewrite Hp in Hp'; try done; injection Hp' as <- <-.
    - lia.
    - congruence.
    - destruct file as [path|].
      + destruct (Hsome path eq_refl) as (-> & _ & Hc). congruence.
      + by destruct Ho'; apply Hnone.
    - rewrite Ha in Ha'. injection Ha' as <-. congruence.
    - rewrite Ha in Ha'. injection Ha' as <-. rewrite Hr in Hr'. injection Hr' as <-.
      congruence. }
  destruct (outputFile fl) as [|c path] eqn:Eo.
  - intros Hrun. apply (Hsearch None out Hrun); [done|done].
  - destruct (FileCreator ctx (c :: path)) as [e|] eqn:Hc.
    + intros [= <-]. right. repeat split.
      apply (FileCreateError ParseInt ctx fl rest e Hp); by rewrite Eo.
    + intros Hrun. apply (Hsearch (Some (c :: path)) out Hrun); [done|].
      intros p [= <-]. rewrite ?Eo. by repeat split.
Qed.

Lemma Run_exit_code_witness :
  (exitCode (mkRun 1 [] [mkLog (lit "Context size cannot be negative") []] [] None) = 0 /\
   ~ runError parseDecimal negative_width_run) \/
  (exitCode (mkRun 1 [] [mkLog (lit "Context size cannot be negative") []] [] None) = 1 /\
   runError parseDecimal negative_width_run /\
   stdout (mkRun 1 [] [mkLog (lit "Context size cannot be negative") []] [] None) = []).
Proof.
  apply (Run_exit_code parseDecimal negative_width_run).
  vm_compute. reflexivity.
Defined.

(** X11.  The output file of [-o] is created before the input file is
    opened: when the input file cannot be opened, [Run] returns 1 and leaves
    the output file created with nothing written to it. *)
Theorem output_file_is_created_first (ParseInt : gostring -> option Z)
    (ctx : AppContext) (fl : Flags) (rest : list gostring) (config : Config)
    (e : error) :
  Parse ParseInt defaultFlags (drop 1 (Args ctx)) = Success (fl, rest) ->
  0 <= contextSize fl ->
  ParseArgs rest (ExecPath ctx) = Success config ->
  outputFile fl <> [] ->
  FileCreator ctx (outputFile fl) = None ->
  FileReader ctx (InputFilePath config) = Failure e ->
  Run ParseInt ctx =
    Done (mkRun 1 []
            [mkLog (lit "Failed to open input file")
               [(lit "path", LogString (InputFilePath config));
                (lit "error", LogError e)]]
            [] (Some (outputFile fl, []))).
Proof.
  intros Hp Hn Ha Ho Hc Hr. unfold Run. rewrite Hp.
  destruct (contextSize fl <? 0) eqn:E; [lia|]. rewrite Ha.
  destruct (outputFile fl) as [|c path] eqn:Eo; [done|]. rewrite Hc.
  unfold search. cbn [InputFilePath]. by rewrite Hr.
Qed.

Lemma output_file_is_created_first_witness :
  Run parseDecimal unreadable_run =
    Done (mkRun 1 []
            [mkLog (lit "Failed to open input file")
               [(lit "path", LogString (lit "missing.log"));
                (lit "error", LogError (ErrExternal (lit "no such file")))]]
            [] (Some (lit "out.txt", []))).
Proof.
  apply (output_file_is_created_first parseDecimal unreadable_run
           (mkFlags (lit "out.txt") 20) [lit "missing.log"]
           (mkConfig (lit "missing.log") [lit "MATCH"] 20)
           (ErrExternal (lit "no such file"))).
  - vm_compute. reflexivity.
  - vm_compute. discriminate.
  - vm_compute. reflexivity.
  - discriminate.
  - reflexivity.
  - reflexivity.
Defined.

Lemma shapeOf_positional (s : gostring) :
  head s <> Some "-"%byte -> shapeOf s = NotAFlag.
Proof.
  intros H. destruct s as [|b0 [|b1 s]]; [done|done|].
  unfold shapeOf. destruct (Byte.eqb b0 "-") eqn:E; [|done].
  apply Byte.byte_dec_bl in E as ->. by destruct H.
Qed.

(** X12.  The flags end at the first positional argument, and [ParseArgs]
    reads only that argument: when the argument after the program name does
    not begin with a dash, it is the input path, the context width is the
    default 20, no output file is written, and whatever follows on the command
    line, flags included, is ignored. *)
Theorem arguments_after_the_input_are_ignored (ParseInt : gostring -> option Z)
    (ctx : AppContext) (prog input : gostring) (extra : list gostring) :
  Args ctx = prog :: input :: extra ->
  head input <> Some "-"%byte ->
  Run ParseInt ctx =
    match ParseArgs [input] (ExecPath ctx) with
    | Failure err =>
        Done (failed (mkLog (lit "Configuration error") [(lit "error", LogError err)]) None)
    | Success config =>
        search ctx (mkConfig input (Queries config) DefaultContextSize) None
    end.
Proof.
  intros Hargs Hinput. unfold Run. rewrite Hargs. cbn [drop Parse].
  rewrite (shapeOf_positional input Hinput). cbn [contextSize outputFile defaultFlags].
  replace (DefaultContextSize <? 0) with false by reflexivity.
  unfold ParseArgs.
  destruct (len (Split (nameWithoutExtOf (Base (ExecPath ctx))) underscore) <? 2); [done|].
  destruct (len (validQueriesOf _) =? 0); done.
Qed.

Lemma arguments_after_the_input_are_ignored_witness :
  Run parseDecimal trailing_args_run =
    match ParseArgs [lit "dummy.log"] (ExecPath trailing_args_run) with
    | Failure err =>
        Done (failed (mkLog (lit "Configuration error") [(lit "error", LogError err)]) None)
    | Success config =>
        search trailing_args_run
          (mkConfig (lit "dummy.log") (Queries config) DefaultContextSize) None
    end.
Proof.
  apply (arguments_after_the_input_are_ignored parseDecimal trailing_args_run
           (lit "app") (lit "dummy.log") [lit "-n"; lit "3"]).
  - reflexivity.
  - vm_compute. discriminate.
Defined.

(** ** The name of the executable *)

Lemma Split_subset (s : gostring) (sep : byte) (part : gostring) (b : byte) :
  part ∈ Split s sep -> b ∈ part -> b ∈ s.
Proof.
  revert part. induction s as [|c s IH]; intros part; cbn [Split].
  - intros ->%list_elem_of_singleton. by intros ?%not_elem_of_nil.
  - destruct (Byte.eqb c sep).
    + intros [->|Hp]%elem_of_cons; [by intros ?%not_elem_of_nil|].
      intros Hb. right. by apply (IH part).
    + destruct (Split s sep) as [|p ps] eqn:E.
      * intros ->%list_elem_of_singleton. intros ->%list_elem_of_singleton. by left.
      * intros [->|Hp]%elem_of_cons.
        -- intros [->|Hb]%elem_of_cons; [by left|]. right. apply (IH p); [by left|done].
        -- intros Hb. right. apply (IH part); [by right|done].
Qed.

Lemma takeWhile_Forall {A} (p : A -> bool) (l : list A) :
  Forall (fun a => p a = true) (takeWhile p l).
Proof.
  induction l as [|a l IH]; simpl; [constructor|].
  destruct (p a) eqn:E; [by constructor|constructor].
Qed.

(** The base name is the separator alone or holds no separator. *)
Lemma Base_no_separator (path : gostring) :
  Base path = lit "/" \/ "/"%byte ∉ Base path.
Proof.
  unfold Base. destruct path as [|c path].
  { right. vm_compute. intros H. by repeat (apply elem_of_cons in H as [H|H]; [done|]);
      apply not_elem_of_nil in H. }
  destruct (rev (takeWhile _ _)) as [|d last] eqn:E; [by left|]. right.
  rewrite <- E. intros H. apply list_elem_of_In, in_rev, list_elem_of_In in H.
  pose proof (takeWhile_Forall (fun b => negb (IsPathSeparator b))
                (rev (rev (dropWhile IsPathSeparator (rev (c :: path)))))) as Hall.
  rewrite Forall_forall in Hall. specialize (Hall _ H). done.
Qed.

Lemma validQueries_subset (q : gostring) (queries : list gostring) :
  q ∈ validQueriesOf queries -> q ∈ queries /\ q <> [].
Proof.
  rewrite validQueriesOf_filter, !list_elem_of_In, List.filter_In.
  intros [Hq Hne]. split; [done|]. by destruct q.
Qed.

(** X13.  A configuration [ParseArgs] returns has the first argument as
    input path, the default context width 20 and at least one query; every
    query is non-empty and holds neither an underscore nor a path separator,
    and there are fewer queries than segments in the name. *)
Theorem ParseArgs_config (args : list gostring) (execPath : gostring) (config : Config) :
  ParseArgs args execPath = Success config ->
  head args = Some (InputFilePath config) /\
  ContextSize config = DefaultContextSize /\
  Queries config <> [] /\
  Forall (fun q => q <> [] /\ (underscore ∉ q) /\ ("/"%byte ∉ q)) (Queries config) /\
  len (Queries config) < len (segments execPath).
Proof.
  unfold ParseArgs. fold (segments execPath).
  destruct args as [|inputFile rest]; [done|].
  destruct (len (segments execPath) <? 2) eqn:Hlen; [done|].
  destruct (len (validQueriesOf (drop 1 (segments execPath))) =? 0) eqn:Hv; [done|].
  intros [= <-]. cbn [InputFilePath ContextSize Queries].
  split; [done|]. split; [done|]. split.
  { intros H. rewrite H in Hv. done. }
  split.
  - apply Forall_forall. intros q Hq. apply validQueries_subset in Hq as [Hq Hne].
    apply list_elem_of_lookup in Hq as [i Hi]. rewrite lookup_drop in Hi.
    assert (Hin : q ∈ segments execPath) by (apply list_elem_of_lookup; eauto).
    split; [done|]. split.
    + pose proof (Split_no_sep (nameWithoutExtOf (Base execPath)) underscore) as Hs.
      rewrite Forall_forall in Hs. by apply Hs.
    + intros Hslash. apply (Split_subset _ _ _ _ Hin) in Hslash.
      unfold nameWithoutExtOf in Hslash.
      apply list_elem_of_lookup in Hslash as [j Hj]. apply lookup_take_Some in Hj as [Hj _].
      assert (Hb : "/"%byte ∈ Base execPath) by (apply list_elem_of_lookup; eauto).
      destruct (Base_no_separator execPath) as [Heq|Hno]; [|done].
      unfold segments in Hlen. rewrite Heq in Hlen. vm_compute in Hlen. done.
  - rewrite validQueriesOf_filter. unfold len.
    pose proof (List.filter_length_le nonEmpty (drop 1 (segments execPath))) as Hf.
    rewrite length_drop in Hf. unfold len in Hlen. lia.
Qed.

Lemma ParseArgs_config_witness :
  head [lit "file.txt"] = Some (InputFilePath (mkConfig (lit "file.txt") [lit "error"; lit "warn"] 20)) /\
  ContextSize (mkConfig (lit "file.txt") [lit "error"; lit "warn"] 20) = DefaultContextSize /\
  Queries (mkConfig (lit "file.txt") [lit "error"; lit "warn"] 20) <> [] /\
  Forall (fun q => q <> [] /\ (underscore ∉ q) /\ ("/"%byte ∉ q))
    (Queries (mkConfig (lit "file.txt") [lit "error"; lit "warn"] 20)) /\
  len (Queries (mkConfig (lit "file.txt") [lit "error"; lit "warn"] 20))
    < len (segments (lit "/bin/grep_error_warn")).
Proof.
  apply (ParseArgs_config [lit "file.txt"] (lit "/bin/grep_error_warn")).
  vm_compute. reflexivity.
Defined.

Lemma takeWhile_app_stop {A} (p : A -> bool) (a : list A) (b : A) (c : list A) :
  Forall (fun x => p x = true) a -> p b = false ->
  takeWhile p (a ++ b :: c) = a.
Proof.
  intros Ha Hb. induction Ha as [|x a Hx _ IH]; simpl.
  - by rewrite Hb.
  - by rewrite Hx, IH.
Qed.

Lemma takeWhile_all {A} (p : A -> bool) (a : list A) :
  Forall (fun x => p x = true) a -> takeWhile p a = a.
Proof.
  intros Ha. induction Ha as [|x a Hx _ IH]; simpl; [done|]. by rewrite Hx, IH.
Qed.

Lemma dropWhile_head {A} (p : A -> bool) (l : list A) :
  (forall x, head l = Some x -> p x = false) -> dropWhile p l = l.
Proof.
  destruct l as [|x l]; [done|]. intros H. simpl. by rewrite (H x eq_refl).
Qed.

Lemma not_separator (name : gostring) :
  "/"%byte ∉ name ->
  Forall (fun b => negb (IsPathSeparator b) = true) (rev name).
Proof.
  intros Hno. apply Forall_forall. intros b Hb.
  apply list_elem_of_In, in_rev, list_elem_of_In in Hb.
  unfold IsPathSeparator. destruct (Byte.eqb b "/") eqn:E; [|done].
  apply Byte.byte_dec_bl in E as ->. done.
Qed.

Lemma rev_head_not_separator (name more : gostring) (x : byte) :
  name <> [] -> "/"%byte ∉ name ->
  head (rev name ++ more) = Some x -> IsPathSeparator x = false.
Proof.
  intros Hne Hno Hx. pose proof (not_separator name Hno) as Hall.
  destruct (rev name) as [|y r] eqn:E.
  - apply (f_equal (@rev byte)) in E. rewrite rev_involutive in E. done.
  - simpl in Hx. injection Hx as <-. inversion Hall; subst.
    by destruct (IsPathSeparator y).
Qed.

Lemma Base_plain (name : gostring) :
  name <> [] -> "/"%byte ∉ name -> Base name = name.
Proof.
  intros Hne Hno. unfold Base. destruct name as [|c name]; [done|].
  rewrite dropWhile_head, rev_involutive.
  - rewrite takeWhile_all by by apply not_separator.
    rewrite rev_involutive. done.
  - intros x Hx. apply (rev_head_not_separator (c :: name) [] x); [done|done|].
    by rewrite app_nil_r.
Qed.

Lemma Base_in_directory (dir name : gostring) :
  name <> [] -> "/"%byte ∉ name -> Base (dir ++ "/"%byte :: name) = name.
Proof.
  intros Hne Hno. unfold Base.
  destruct (dir ++ "/"%byte :: name) as [|c path] eqn:E; [by destruct dir|].
  rewrite <- E. clear E.
  assert (Hrev : rev (dir ++ "/"%byte :: name) = rev name ++ "/"%byte :: rev dir).
  { rewrite rev_app_distr. simpl. by rewrite <- app_assoc. }
  rewrite dropWhile_head, rev_involutive.
  - rewrite Hrev, takeWhile_app_stop; [|by apply not_separator|done].
    rewrite rev_involutive. by destruct name.
  - intros x Hx. rewrite Hrev in Hx. by apply (rev_head_not_separator name ("/"%byte :: rev dir) x).
Qed.

(** X14.  Only the base name of the executable counts: with any directory
    in front of a name that holds no separator, [ParseArgs] returns what it
    returns for the name alone. *)
Theorem ParseArgs_ignores_the_directory (args : list gostring) (dir name : gostring) :
  name <> [] -> "/"%byte ∉ name ->
  ParseArgs args (dir ++ "/"%byte :: name) = ParseArgs args name.
Proof.
  intros Hne Hno. unfold ParseArgs.
  by rewrite (Base_in_directory dir name Hne Hno), (Base_plain name Hne Hno).
Qed.

Lemma ParseArgs_ignores_the_directory_witness :
  ParseArgs [lit "file.txt"] (lit "/usr/local/bin" ++ "/"%byte :: lit "grep_error_warn")
  = ParseArgs [lit "file.txt"] (lit "grep_error_warn").
Proof.
  apply (ParseArgs_ignores_the_directory [lit "file.txt"] (lit "/usr/local/bin")
           (lit "grep_error_warn")).
  - discriminate.
  - vm_compute. intros H.
    repeat (apply elem_of_cons in H as [H|H]; [discriminate H|]).
    by apply not_elem_of_nil in H.
Defined.

Lemma extLoop_dot (r more suffix : gostring) :
  Forall (fun b => IsPathSeparator b = false /\ Byte.eqb b "." = false) r ->
  extLoop (r ++ "."%byte :: more) suffix = "."%byte :: rev r ++ suffix.
Proof.
  intros Hr. revert suffix. induction Hr as [|b r [Hs Hd] _ IH]; intros suffix.
  - reflexivity.
  - simpl. rewrite Hs, Hd, IH. by rewrite <- app_assoc.
Qed.

Lemma extLoop_no_dot (r suffix : gostring) :
  Forall (fun b => Byte.eqb b "." = false) r -> extLoop r suffix = [].
Proof.
  intros Hr. revert suffix. induction Hr as [|b r Hd _ IH]; intros suffix; simpl; [done|].
  destruct (IsPathSeparator b); [done|]. by rewrite Hd, IH.
Qed.

Lemma Forall_rev_plain (P : byte -> Prop) (s : gostring) :
  Forall P s -> Forall P (rev s).
Proof.
  rewrite !Forall_forall. intros H b Hb. apply H.
  by apply list_elem_of_In, in_rev, list_elem_of_In in Hb.
Qed.

Lemma not_elem_eqb (c : byte) (s : gostring) :
  c ∉ s -> Forall (fun b => Byte.eqb b c = false) s.
Proof.
  intros Hno. apply Forall_forall. intros b Hb.
  destruct (Byte.eqb b c) eqn:E; [|done]. apply Byte.byte_dec_bl in E as ->. done.
Qed.

(** X15.  The extension is what follows the last dot of the base name and
    is never searched for: for a base name [stem.ext] (no separator; no dot
    in [ext]) the segments are those of [stem], also when [ext] holds
    underscores; a base name without a dot is taken whole. *)
Theorem extension_is_stripped (stem ext name : gostring) :
  ("/"%byte ∉ stem -> "/"%byte ∉ ext -> "."%byte ∉ ext ->
   segments (stem ++ "."%byte :: ext) = Split stem underscore) /\
  (name <> [] -> "/"%byte ∉ name -> "."%byte ∉ name ->
   segments name = Split name underscore).
Proof.
  split.
  - intros Hs He Hd. unfold segments.
    rewrite Base_plain.
    + unfold nameWithoutExtOf, Ext.
      rewrite rev_app_distr. cbn [rev]. rewrite <- app_assoc. cbn [app].
      rewrite extLoop_dot.
      * rewrite rev_involutive, app_nil_r, length_app. cbn [length].
        replace (length stem + S (length ext) - S (length ext))%nat with (length stem) by lia.
        by rewrite take_app_length.
      * apply Forall_rev_plain. apply Forall_forall. intros b Hb.
        pose proof (not_elem_eqb _ _ He) as H1. pose proof (not_elem_eqb _ _ Hd) as H2.
        rewrite Forall_forall in H1, H2. split; [by apply H1|by apply H2].
    + by destruct stem.
    + intros [H|H]%elem_of_app; [done|].
      apply elem_of_cons in H as [H|H]; [discriminate H|done].
  - intros Hne Hs Hd. unfold segments. rewrite Base_plain by done.
    unfold nameWithoutExtOf, Ext.
    rewrite extLoop_no_dot by (apply Forall_rev_plain; by apply not_elem_eqb).
    cbn [length]. rewrite Nat.sub_0_r. by rewrite firstn_all.
Qed.

Lemma extension_is_stripped_witness :
  segments (lit "app_error" ++ "."%byte :: lit "old_exe") = Split (lit "app_error") underscore.
Proof.
  apply (proj1 (extension_is_stripped (lit "app_error") (lit "old_exe") [])).
  - vm_compute. intros H.
    repeat (apply elem_of_cons in H as [H|H]; [discriminate H|]).
    by apply not_elem_of_nil in H.
  - vm_compute. intros H.
    repeat (apply elem_of_cons in H as [H|H]; [discriminate H|]).
    by apply not_elem_of_nil in H.
  - vm_compute. intros H.
    repeat (apply elem_of_cons in H as [H|H]; [discriminate H|]).
    by apply not_elem_of_nil in H.
Defined.

(** ** Widths outside the intended range *)

(** X16.  [extractSnippet] itself does not guard against a negative width
    (the guard is in [Run]): when the query is found and has fewer than
    [2 * |N|] runes, the start index of the slice lies behind its end index and
    the slice expression panics. *)
Theorem negative_width_panics (lineRunes : list Z) (query : gostring) (N : Z) (i : nat) :
  firstOccurrence lineRunes (runes query) i ->
  N < 0 ->
  len lineRunes - N <= MaxInt ->
  len (runes query) < 2 * - N ->
  extractSnippet lineRunes query N = Panic.
Proof.
  intros Hfirst HN Hmax Hq. pose proof (occursAt_bound _ _ _ (proj1 Hfirst)) as Hb.
  unfold extractSnippet. cbv zeta. rewrite (searchFrom_first _ _ _ Hfirst).
  pose proof (len_nonneg (runes query)) as Hq0. pose proof MaxInt_val. pose proof MinInt_val.
  assert (Hl : Z.of_nat i + len (runes query) <= len lineRunes) by (unfold len; lia).
  destruct (Z.of_nat i =? -1) eqn:E; [lia|]. clear E.
  unfold int_sub, int_add.
  rewrite (wrap_small (Z.of_nat i - N)) by lia.
  rewrite (wrap_small (Z.of_nat i + len (runes query))) by lia.
  rewrite (wrap_small (Z.of_nat i + len (runes query) + N)) by lia.
  destruct (Z.of_nat i - N <? 0) eqn:E1; [lia|].
  destruct (len lineRunes <? Z.of_nat i + len (runes query) + N) eqn:E2; [lia|].
  unfold slice. destruct (_ && _) eqn:E3; [lia|]. reflexivity.
Qed.

Lemma negative_width_panics_witness :
  extractSnippet (runes target_line) (lit "TARGET") (-4) = Panic.
Proof.
  apply (negative_width_panics (runes target_line) (lit "TARGET") (-4) 20).
  - apply searchFrom_first_inv. vm_compute. reflexivity.
  - lia.
  - vm_compute. discriminate.
  - vm_compute. reflexivity.
Defined.

(** X17.  For every width from 0 to [MaxInt - 65536], [SearchStream] does
    not panic, whatever the bytes of the stream and whatever the queries
    (empty, repeated or invalid UTF-8): it returns a result map or the error
    of the scanner. *)
Theorem SearchStream_does_not_panic (r : Reader) (queries : list gostring) (N : Z) :
  safeWidth N ->
  (exists rs, SearchStream r queries N = Done (Success rs) /\ (scanLines r).2 = None) \/
  (exists e, SearchStream r queries N = Done (Failure (ErrReadStream e)) /\
             (scanLines r).2 = Some e).
Proof.
  intros HN.
  destruct (resultsAfter_total N queries (scanLines r).1 HN (scanLines_short r))
    as [rs Hrs].
  rewrite SearchStream_unfold, Hrs. simpl.
  destruct ((scanLines r).2) as [e|]; [right; by exists e|left; by exists rs].
Qed.

Lemma SearchStream_does_not_panic_witness :
  (exists rs, SearchStream (mkReader ["195"; "169"]%byte None) [[]; ["169"]%byte; []] 20
              = Done (Success rs) /\
              (scanLines (mkReader ["195"; "169"]%byte None)).2 = None) \/
  (exists e, SearchStream (mkReader ["195"; "169"]%byte None) [[]; ["169"]%byte; []] 20
             = Done (Failure (ErrReadStream e)) /\
             (scanLines (mkReader ["195"; "169"]%byte None)).2 = Some e).
Proof.
  apply (SearchStream_does_not_panic (mkReader ["195"; "169"]%byte None)
           [[]; ["169"]%byte; []] 20).
  vm_compute. split; discriminate.
Defined.

(** ** The layout of the output *)

Lemma lineCount_app (a b : gostring) : lineCount (a ++ b) = (lineCount a + lineCount b)%nat.
Proof. unfold lineCount. by rewrite List.filter_app, length_app. Qed.

Lemma lineCount_none (s : gostring) : newline ∉ s -> lineCount s = 0%nat.
Proof.
  unfold lineCount. induction s as [|b s IH]; [done|]. intros Hno. simpl.
  destruct (Byte.eqb newline b) eqn:E.
  - apply Byte.byte_dec_bl in E as <-. exfalso. apply Hno. by left.
  - apply IH. intros H. apply Hno. by right.
Qed.

Lemma uint_no_newline (d : Decimal.uint) :
  newline ∉ String.list_byte_of_string (DecimalString.NilEmpty.string_of_uint d).
Proof.
  unfold String.list_byte_of_string.
  induction d as [|d IH|d IH|d IH|d IH|d IH|d IH|d IH|d IH|d IH|d IH];
    cbn [DecimalString.NilEmpty.string_of_uint String.list_ascii_of_string List.map];
    [apply not_elem_of_nil|..];
    (intros H; apply elem_of_cons in H as [H|H]; [vm_compute in H; discriminate H|done]).
Qed.

Lemma list_byte_of_String (a : Ascii.ascii) (s : string) :
  String.list_byte_of_string (String.String a s)
  = Ascii.byte_of_ascii a :: String.list_byte_of_string s.
Proof. reflexivity. Qed.

Lemma NilZero_no_newline (d : Decimal.uint) :
  newline ∉ String.list_byte_of_string (DecimalString.NilZero.string_of_uint d).
Proof.
  unfold DecimalString.NilZero.string_of_uint.
  destruct d; try apply uint_no_newline.
  vm_compute. intros H. apply elem_of_cons in H as [H|H]; [discriminate H|].
  by apply not_elem_of_nil in H.
Qed.

Lemma formatInt_no_newline (n : Z) : newline ∉ formatInt n.
Proof.
  unfold formatInt, DecimalString.NilZero.string_of_int.
  destruct (Z.to_int n) as [d|d]; [apply NilZero_no_newline|].
  rewrite list_byte_of_String. intros H.
  apply elem_of_cons in H as [H|H]; [vm_compute in H; discriminate H|].
  by apply NilZero_no_newline in H.
Qed.

Lemma lineCount_formatSnippets (i : Z) (snippets : list gostring) :
  Forall (fun s => newline ∉ s) snippets ->
  lineCount (formatSnippets i snippets) = length snippets.
Proof.
  intros Hall. revert i. induction Hall as [|s snippets Hs _ IH]; intros i; [done|].
  cbn [formatSnippets length]. rewrite !lineCount_app, IH.
  rewrite (lineCount_none (formatInt (i + 1))) by apply formatInt_no_newline.
  rewrite (lineCount_none s) by done. reflexivity.
Qed.

Lemma lineCount_formatBlock (res : SearchResult) :
  newline ∉ Query res ->
  Forall (fun s => newline ∉ s) (Snippets res) ->
  lineCount (formatBlock res) = (3 + length (Snippets res))%nat.
Proof.
  intros Hq Hs. unfold formatBlock, separatorLine.
  rewrite !lineCount_app, lineCount_formatSnippets by done.
  rewrite (lineCount_none (Query res)) by done.
  rewrite (lineCount_none (formatInt (Count res))) by apply formatInt_no_newline.
  vm_compute lineCount. lia.
Qed.

(** X18.  In the output for a result of [SearchStream], the block of a
    query without a newline byte has exactly three lines (header, count,
    separator) and one line for each snippet, hence at most 13 lines. *)
Theorem block_line_count (r : Reader) (queries : list gostring) (N : Z)
    (rs : gmap gostring SearchResult) (q : gostring) (res : SearchResult) :
  SearchStream r queries N = Done (Success rs) ->
  rs !! q = Some res ->
  newline ∉ q ->
  lineCount (blockOf rs q) = (3 + length (Snippets res))%nat /\
  (lineCount (blockOf rs q) <= 13)%nat.
Proof.
  intros Hrs Hres Hq. apply SearchStream_Success in Hrs as [Hrs _].
  assert (Hin : q ∈ queries) by (apply (resultsAfter_keys _ _ _ _ q Hrs); eauto).
  unfold blockOf. rewrite Hres.
  rewrite (resultsAfter_lookup _ _ _ _ q Hrs Hin) in Hres. injection Hres as <-.
  rewrite lineCount_formatBlock.
  - split; [done|]. rewrite initial_Snippets, length_take. lia.
  - by rewrite afterLines_Query.
  - rewrite initial_Snippets. apply Forall_take, Forall_snippetsFor.
    intros lineText Hl. apply snippetOf_wellformed.
    pose proof (scanLines_no_newline r) as Hn. rewrite Forall_forall in Hn. by apply Hn.
Qed.

Lemma block_line_count_witness :
  exists rs : gmap gostring SearchResult,
    lineCount (blockOf rs (lit "MATCH"))
    = (3 + length (Snippets (mkSearchResult (lit "MATCH") 1 [lit "prefix MATCH suffix"])))%nat /\
    (lineCount (blockOf rs (lit "MATCH")) <= 13)%nat.
Proof.
  destruct (recordOf_Some (SearchStream (mkReader lazy_content None) [lit "MATCH"] 10)
              (lit "MATCH") (mkSearchResult (lit "MATCH") 1 [lit "prefix MATCH suffix"]))
    as (rs & Hrs & Hres).
  { vm_compute. reflexivity. }
  exists rs.
  apply (block_line_count (mkReader lazy_content None) [lit "MATCH"] 10 rs
           (lit "MATCH") _ Hrs Hres).
  vm_compute. intros H.
  repeat (apply elem_of_cons in H as [H|H]; [discriminate H|]).
  by apply not_elem_of_nil in H.
Defined.
